(** * translytics: the feed reader of [scripts/read_data.py]

    A shallow embedding of the parsing, aggregation and ingestion code of
    [scripts/read_data.py], and the properties its specification states
    about it.

    Conventions of the embedding.
    - A JSON object of the feed is a record with one field per key the code
      reads.  A key the code may find missing is an [option]; subscripting
      a missing key raises [KeyError], as in Python.
    - Python exceptions are values of [exn]; a computation that can raise is
      a [result].  [try: ... except KeyError:] is [except_KeyError].
    - Python [int]s are [Z]; a [float] that the code computes is kept by
      its value, a rational, with the rounding of IEEE 754 binary64.
      Dictionaries used as maps ([routes], [stops]) are [gmap]s;
      dictionaries that are iterated in order are association lists. *)

From Stdlib Require Import ZArith List Lia Bool QArith.
From stdpp Require Import base option list gmap strings sorting.

Local Open Scope Z_scope.

(** ** Exceptions *)

Inductive exn : Set :=
  | KeyError          (* a missing dictionary key *)
  | AttributeError    (* an attribute of [None] *)
  | ValueError        (* [datetime]: year out of range *)
  | StatisticsError   (* [statistics]: no data *)
  | OverflowError     (* an integer too large for a float or for [time_t] *)
  | OSError           (* [gmtime]: value too large for defined data type *)
  | DriverError.      (* a failed request to the store *)

Inductive result (A : Type) : Type :=
  | Ok (a : A)
  | Raise (e : exn).
Arguments Ok {A} a.
Arguments Raise {A} e.

#[global] Instance result_ret : MRet result := @Ok.
#[global] Instance result_bind : MBind result := λ A B f r,
  match r with
  | Ok a => f a
  | Raise e => Raise e
  end.
#[global] Instance exn_eq_dec : EqDecision exn.
Proof. solve_decision. Defined.

(** [d[k]] on a dictionary in which key [k] may be missing. *)
Definition subscript {A} (field : option A) : result A :=
  match field with
  | Some a => Ok a
  | None => Raise KeyError
  end.

(** [try: body except KeyError: handler]. *)
Definition except_KeyError {A} (body handler : result A) : result A :=
  match body with
  | Raise KeyError => handler
  | r => r
  end.

(** [x.attr] where [x] may be [None]. *)
Definition getattr {A B} (x : option A) (attr : A → B) : result B :=
  match x with
  | Some a => Ok (attr a)
  | None => Raise AttributeError
  end.

(** A [for] loop whose body can raise. *)
Fixpoint for_each {S A} (body : S → A → result S) (l : list A) (s : S)
    : result S :=
  match l with
  | [] => Ok s
  | a :: l => s' ← body s a; for_each body l s'
  end.

(** ** Dates and times

    [datetime.fromtimestamp(t, tz=timezone.utc)] and [datetime.timestamp()]
    of the Python standard library, on whole seconds.  The calendar
    arithmetic follows the library's [_ord2ymd] and [_ymd2ord]. *)

Module Datetime.

Definition MINYEAR : Z := 1.
Definition MAXYEAR : Z := 9999.

Definition DI400Y : Z := 146097.
Definition DI100Y : Z := 36524.
Definition DI4Y : Z := 1461.

Definition is_leap (year : Z) : bool :=
  (year mod 4 =? 0) && (negb (year mod 100 =? 0) || (year mod 400 =? 0)).

Definition days_before_year (year : Z) : Z :=
  let y := year - 1 in
  y * 365 + y / 4 - y / 100 + y / 400.

Definition DAYS_IN_MONTH (month : Z) : Z :=
  match month with
  | 1 => 31 | 2 => 28 | 3 => 31 | 4 => 30 | 5 => 31 | 6 => 30
  | 7 => 31 | 8 => 31 | 9 => 30 | 10 => 31 | 11 => 30 | 12 => 31
  | _ => -1
  end.

Definition DAYS_BEFORE_MONTH (month : Z) : Z :=
  match month with
  | 1 => 0 | 2 => 31 | 3 => 59 | 4 => 90 | 5 => 120 | 6 => 151
  | 7 => 181 | 8 => 212 | 9 => 243 | 10 => 273 | 11 => 304 | 12 => 334
  | _ => -1
  end.

Definition days_before_month (year month : Z) : Z :=
  DAYS_BEFORE_MONTH month
  + (if (2 <? month) && is_leap year then 1 else 0).

Definition ymd2ord (year month day : Z) : Z :=
  days_before_year year + days_before_month year month + day.

Definition ord2ymd (ordinal : Z) : Z * Z * Z :=
  let n := ordinal - 1 in
  let n400 := n / DI400Y in
  let n := n mod DI400Y in
  let year := n400 * 400 + 1 in
  let n100 := n / DI100Y in
  let n := n mod DI100Y in
  let n4 := n / DI4Y in
  let n := n mod DI4Y in
  let n1 := n / 365 in
  let n := n mod 365 in
  let year := year + n100 * 100 + n4 * 4 + n1 in
  if (n1 =? 4) || (n100 =? 4) then (year - 1, 12, 31)
  else
    let leapyear := (n1 =? 3) && (negb (n4 =? 24) || (n100 =? 3)) in
    let month := Z.shiftr (n + 50) 5 in
    let preceding :=
      DAYS_BEFORE_MONTH month
      + (if (2 <? month) && leapyear then 1 else 0) in
    if n <? preceding then
      let month := month - 1 in
      let preceding :=
        preceding
        - (DAYS_IN_MONTH month
           + (if (month =? 2) && leapyear then 1 else 0)) in
      (year, month, n - preceding + 1)
    else (year, month, n - preceding + 1).

Inductive timezone : Set := utc.

Record datetime : Set := mk_datetime {
  year : Z;
  month : Z;
  day : Z;
  hour : Z;
  minute : Z;
  second : Z;
  microsecond : Z;
  tzinfo : option timezone
}.

#[global] Instance timezone_eq_dec : EqDecision timezone.
Proof. solve_decision. Defined.
#[global] Instance timezone_countable : Countable timezone :=
  inj_countable' (λ _ : timezone, ()) (λ _, utc) (λ tz, match tz with utc => eq_refl end).
#[global] Instance datetime_eq_dec : EqDecision datetime.
Proof. solve_decision. Defined.
#[global] Instance datetime_countable : Countable datetime :=
  inj_countable'
    (λ dt, (year dt, month dt, day dt, hour dt, minute dt, second dt,
            microsecond dt, tzinfo dt))
    (λ '(y, m, d, hh, mm, ss, us, tz), mk_datetime y m d hh mm ss us tz)
    (λ dt, match dt with mk_datetime _ _ _ _ _ _ _ _ => eq_refl end).

(** Ordinal of 1970-01-01. *)
Definition EPOCH_ORDINAL : Z := 719163.

(** [time.gmtime(t)]: the broken-down UTC time of epoch second [t]. *)
Definition gmtime (t : Z) : Z * Z * Z * Z * Z * Z :=
  let days := t / 86400 in
  let rem := t mod 86400 in
  let '(y, m, d) := ord2ymd (days + EPOCH_ORDINAL) in
  (y, m, d, rem / 3600, (rem mod 3600) / 60, rem mod 60).

(** The range of the C type [time_t], of 64 bits, and of the C [int]
    that holds [tm_year]. *)
Definition TIME_T_MIN : Z := -9223372036854775808.
Definition TIME_T_MAX : Z := 9223372036854775807.
Definition INT_MIN : Z := -2147483648.
Definition INT_MAX : Z := 2147483647.

(** [datetime.fromtimestamp(t, tz=timezone.utc)] for an integer [t], in
    CPython on Linux.  An integer outside [time_t] raises [OverflowError];
    [gmtime] fails, and the call raises [OSError], when the year less 1900
    does not fit [tm_year]; and the library refuses, with [ValueError], an
    instant whose year lies outside [MINYEAR..MAXYEAR]. *)
Definition fromtimestamp (t : Z) : result datetime :=
  if (t <? TIME_T_MIN) || (TIME_T_MAX <? t) then Raise OverflowError
  else
    let '(y, m, d, hh, mm, ss) := gmtime t in
    if (y - 1900 <? INT_MIN) || (INT_MAX <? y - 1900) then Raise OSError
    else if (MINYEAR <=? y) && (y <=? MAXYEAR)
    then Ok (mk_datetime y m d hh mm ss 0 (Some utc))
    else Raise ValueError.

Definition toordinal (dt : datetime) : Z :=
  ymd2ord (year dt) (month dt) (day dt).

(** [dt.timestamp()] of an aware datetime, [(dt - EPOCH).total_seconds()],
    as whole seconds and the remaining microseconds. *)
Definition timestamp (dt : datetime) : Z * Z :=
  ((toordinal dt - EPOCH_ORDINAL) * 86400
     + hour dt * 3600 + minute dt * 60 + second dt,
   microsecond dt).

(** The epoch seconds [datetime] can represent:
    0001-01-01T00:00:00Z to 9999-12-31T23:59:59Z. *)
Definition MIN_TIMESTAMP : Z := -62135596800.
Definition MAX_TIMESTAMP : Z := 253402300799.

Definition in_range (t : Z) : bool :=
  (MIN_TIMESTAMP <=? t) && (t <=? MAX_TIMESTAMP).

(** The month and day of the [n]-th day (from 0) of a year, as the tail
    of [ord2ymd] computes them. *)
Definition month_day (leapyear : bool) (n : Z) : Z * Z :=
  let month := Z.shiftr (n + 50) 5 in
  let preceding :=
    DAYS_BEFORE_MONTH month
    + (if (2 <? month) && leapyear then 1 else 0) in
  if n <? preceding then
    let month := month - 1 in
    let preceding :=
      preceding
      - (DAYS_IN_MONTH month
         + (if (month =? 2) && leapyear then 1 else 0)) in
    (month, n - preceding + 1)
  else (month, n - preceding + 1).

Definition month_day_ok (leapyear : bool) (n : Z) : bool :=
  let '(m, d) := month_day leapyear n in
  (1 <=? m) && (m <=? 12) && (1 <=? d) && (d <=? 31)
  && (d <=? DAYS_IN_MONTH m + (if (m =? 2) && leapyear then 1 else 0))
  && (DAYS_BEFORE_MONTH m
      + (if (2 <? m) && leapyear then 1 else 0) + d =? n + 1).

(** Checking a boolean property on every integer of [lo, lo + len). *)
Fixpoint forall_from (P : Z → bool) (lo : Z) (len : nat) : bool :=
  match len with
  | O => true
  | S len => P lo && forall_from P (lo + 1) len
  end.

End Datetime.

(** ** The feed

    The records of a snapshot file, after [json.load] and [json.loads].
    A key that the code reads under [try: ... except KeyError] may be
    missing; the keys it reads outside a [try] block (position records,
    translations, rows of the store) are present.  A field that is present
    has the type the feed gives it; the [time] of a stop-time-event is the
    integer that [int] reads from the decimal string or number of the
    feed, whatever its size. *)

(** [arrival] and [departure] of a stop-time-update. *)
Record stop_time_event : Set := mk_stop_time_event {
  ste_delay : option Z;
  ste_time : option Z
}.

Record stop_time_update : Set := mk_stop_time_update {
  stu_stopSequence : option Z;
  stu_arrival : option stop_time_event;
  stu_departure : option stop_time_event;
  stu_stopId : option string
}.

Record trip_descriptor : Set := mk_trip_descriptor {
  td_startDate : option string;
  td_scheduleRelationship : option string;
  td_routeId : option string;
  td_directionId : option Z
}.

Record vehicle_descriptor : Set := mk_vehicle_descriptor {
  vd_label : option string
}.

Record trip_update : Set := mk_trip_update {
  tu_trip : option trip_descriptor;
  tu_vehicle : option vehicle_descriptor;
  tu_stopTimeUpdate : option (list stop_time_update)
}.

(** One element of the snapshot: [{id, tripUpdate}]. *)
Record trip_record : Set := mk_trip_record {
  tr_id : option string;
  tr_tripUpdate : option trip_update
}.

(** [(route_id, direction_id)] *)
Abbreviation route_key := (string * Z)%type.

(** Number of seconds deviance for a bus to be considered "very late" or
    "very early". *)
Definition HIGH_DELAY : Z := 300.

Definition get_trip_info (trip_data : trip_record)
    : result (route_key * list stop_time_update * string * string) :=
  trip_id ← subscript (tr_id trip_data);
  trip_update ← subscript (tr_tripUpdate trip_data);
  trip ← subscript (tu_trip trip_update);
  trip_date ← subscript (td_startDate trip);
  schedule_relationship ← subscript (td_scheduleRelationship trip);
  route_id ← subscript (td_routeId trip);
  direction_id ← subscript (td_directionId trip);
  vehicle ← subscript (tu_vehicle trip_update) ≫= λ v, subscript (vd_label v);
  let route_key := (route_id, direction_id) in
  stop_time_updates ← subscript (tu_stopTimeUpdate trip_update);
  mret (route_key, stop_time_updates, trip_id, vehicle).

(** Returns [(stop_id, arrival_delay, arrival_time)], or [None] when a key
    is missing. *)
Definition get_stop_info (stop : stop_time_update)
    : result (option (string * Z * Datetime.datetime)) :=
  except_KeyError
    (stop_sequence ← subscript (stu_stopSequence stop);
     arrival_delay ← subscript (stu_arrival stop) ≫= λ a, subscript (ste_delay a);
     arrival_time ←
       (subscript (stu_arrival stop) ≫= λ a, subscript (ste_time a))
       ≫= λ t, Datetime.fromtimestamp t;
     departure_delay ←
       subscript (stu_departure stop) ≫= λ d, subscript (ste_delay d);
     stop_id ← subscript (stu_stopId stop);
     mret (Some (stop_id, arrival_delay, arrival_time)))
    (mret None).

Definition get_next_stop_info (stop_updates : list stop_time_update)
    : result (option (string * Z * Datetime.datetime)) :=
  match stop_updates with
  | [] => mret None
  | stop :: _ => get_stop_info stop
  end.

(** ** Floats

    A Python [float] is an IEEE 754 binary64 number: [m * 2^e] with
    [|m| ≤ 2^53] and [-1074 ≤ e], below [2^1024] in absolute value.  The
    code under study makes floats in one way only, the true division
    [a / b] of two [int]s, which CPython rounds correctly: the result is
    the float nearest to the exact quotient, a tie going to the even
    significand, and [OverflowError] when that is [2^1024] or more.  The
    value of a float is kept as a rational. *)

Module Float.

(** The integer nearest to [n / d], a tie going to the even one
    ([0 < d]). *)
Definition nearest_integer (n d : Z) : Z :=
  let q := n / d in
  let r := n mod d in
  if 2 * r <? d then q
  else if d <? 2 * r then q + 1
  else if Z.even q then q else q + 1.

(** [floor (log2 (a / b))], for [0 < a] and [0 < b]. *)
Definition ilog2 (a b : Z) : Z :=
  let d := Z.log2 a - Z.log2 b in
  if b * 2 ^ Z.max 0 d <=? a * 2 ^ Z.max 0 (- d) then d else d - 1.

(** The exponent of the last of the 53 bits of the float nearest to
    [a / b]. *)
Definition exponent (a b : Z) : Z :=
  Z.max (-1074) (ilog2 (Z.abs a) b - 52).

(** [a / b] on two [int]s, for [0 < b]. *)
Definition true_divide (a : Z) (b : positive) : result Q :=
  let e := exponent a (Z.pos b) in
  let m :=
    nearest_integer (a * 2 ^ Z.max 0 (- e)) (Z.pos b * 2 ^ Z.max 0 e) in
  if 0 <=? e then
    if 2 ^ 1024 <=? Z.abs m * 2 ^ e then Raise OverflowError
    else mret (inject_Z (m * 2 ^ e))
  else mret (Qmake m (Z.to_pos (2 ^ (- e)))).

End Float.

(** ** Statistics

    [statistics.mean] and [statistics.median] of the Python standard library
    on integer data, and the built-in [round].  [mean] sums exactly and
    returns the quotient [total / n], as an [int] when it is integral and
    as [float(Fraction(total, n))], the true division of the two integers,
    otherwise; [median] returns the middle element of an odd number of
    data, and [(data[i - 1] + data[i]) / 2], a float, of an even number.
    The value of either result is kept as a rational. *)

Module Statistics.

Definition sum (data : list Z) : Z := foldr Z.add 0 data.

Definition mean (data : list Z) : result Q :=
  match data with
  | [] => Raise StatisticsError
  | _ =>
      let total := sum data in
      let n := Pos.of_nat (length data) in
      if total mod Z.pos n =? 0 then mret (inject_Z (total / Z.pos n))
      else Float.true_divide total n
  end.

(** [sorted(data)] *)
Definition sorted (data : list Z) : list Z := merge_sort Z.le data.

Definition median (data : list Z) : result Q :=
  let data := sorted data in
  let n := length data in
  if decide (n = 0%nat) then Raise StatisticsError
  else if decide (n `mod` 2 = 1)%nat then
    mret (inject_Z (nth (n `div` 2)%nat data 0))
  else
    let i := (n `div` 2)%nat in
    Float.true_divide (nth (i - 1)%nat data 0 + nth i data 0) 2.

(** [round(x)]: the nearest integer, a tie going to the even one. *)
Definition round (x : Q) : Z :=
  let n := Qnum x in
  let d := Zpos (Qden x) in
  let q := n / d in
  let r := n mod d in
  if 2 * r <? d then q
  else if d <? 2 * r then q + 1
  else if Z.even q then q else q + 1.

End Statistics.

Record stats : Set := mk_stats {
  mean : Z;
  median : Z;
  count : Z;
  very_early : Z;
  very_late : Z
}.

Definition get_stats (delays : list Z) : result stats :=
  mean_of_delays ← Statistics.mean delays;
  median_of_delays ← Statistics.median delays;
  mret {|
    mean := Statistics.round mean_of_delays;
    median := Statistics.round median_of_delays;
    count := Z.of_nat (length delays);
    very_early :=
      Statistics.sum
        ((λ delay, if delay <=? - HIGH_DELAY then 1 else 0) <$> delays);
    very_late :=
      Statistics.sum
        ((λ delay, if delay >=? HIGH_DELAY then 1 else 0) <$> delays)
  |}.

(** [for key, delays in data.items(): out[key] = get_stats(delays)] *)
Definition get_route_stats (route_data : gmap route_key (list Z))
    : result (gmap route_key stats) :=
  for_each
    (λ route_stats '(route_key, delays),
       stats ← get_stats delays;
       mret (<[route_key := stats]> route_stats))
    (map_to_list route_data) ∅.

(** The first of the two definitions of [get_stop_stats] in the module,
    the one that reduces delay lists. *)
Definition get_stop_stats (stop_data : gmap string (list Z))
    : result (gmap string stats) :=
  for_each
    (λ stop_stats '(stop, delays),
       stats ← get_stats delays;
       mret (<[stop := stats]> stop_stats))
    (map_to_list stop_data) ∅.

(** ** Aggregation *)

(** [try: d[key].append(delay) except KeyError: d[key] = [delay]] *)
Definition append_delay `{Countable K} (key : K) (delay : Z)
    (d : gmap K (list Z)) : gmap K (list Z) :=
  match d !! key with
  | Some delays => <[key := delays ++ [delay]]> d
  | None => <[key := [delay]]> d
  end.

(** The local state of [read_data]: the two dictionaries it returns and
    the set [stop_updates].  The locals [results] and [current_route]
    never change: [results] stays empty and [current_route] stays [None],
    so the branches guarded by them never run. *)
Record read_state : Type := mk_read_state {
  routes : gmap route_key (list Z);
  stops : gmap string (list Z);
  stop_updates : gset (string * Datetime.datetime * string)
}.

(** The body of [for stop in stop_time_updates]. *)
Definition read_stop (trip_id : string) (st : read_state)
    (stop : stop_time_update) : result read_state :=
  info ← get_stop_info stop;
  match info with
  | None => mret st
  | Some (stop_id, delay, arrival) =>
      mret {|
        routes := routes st;
        stops := append_delay stop_id delay (stops st);
        stop_updates := {[ (stop_id, arrival, trip_id) ]} ∪ stop_updates st
      |}
  end.

(** The body of [for trip_data_string in data], on the decoded record. *)
Definition read_trip (st : read_state) (trip_data : trip_record)
    : result read_state :=
  match get_trip_info trip_data with
  | Raise KeyError => mret st
  | Raise e => Raise e
  | Ok (route_key, stop_time_updates, trip_id, vehicle) =>
      info ← get_next_stop_info stop_time_updates;
      match info with
      | None => mret st
      | Some (_, delay, _) =>
          let st := {|
            routes := append_delay route_key delay (routes st);
            stops := stops st;
            stop_updates := stop_updates st
          |} in
          for_each (read_stop trip_id) stop_time_updates st
      end
  end.

Definition read_data (data : list trip_record)
    : result (gmap route_key (list Z) * gmap string (list Z)) :=
  st ← for_each read_trip data (mk_read_state ∅ ∅ ∅);
  mret (routes st, stops st).

(** ** Alerts: the English text of a translated string *)

(** One element of a [translation] list: [{language, text}]. *)
Record translation : Set := mk_translation {
  language : string;
  text : string
}.

Fixpoint get_english (translations : list translation) : string :=
  match translations with
  | [] => ""
  | translation :: translations =>
      if decide (language translation = "en") then text translation
      else get_english translations
  end.

(** ** The time of the last update *)

(** A calendar date, by its proleptic Gregorian ordinal. *)
Abbreviation date := Z (only parsing).

(** A row of the table [update_time(day, update_time)]. *)
Record update_time_row : Set := mk_update_time_row {
  day : date;
  update_time : Datetime.datetime
}.

(** [SELECT * FROM update_time WHERE day = ? LIMIT 1] *)
Definition select_update_time (table : list update_time_row) (d : date)
    : list update_time_row :=
  take 1 (filter (λ row, day row = d) table).

(** One element of what [execute_concurrent_with_args] returns:
    [(True, result_set)] or [(False, exception)]. *)
Inductive execution_result (A : Type) : Type :=
  | Success (result : list A)
  | Failure (exc : exn).
Arguments Success {A} result.
Arguments Failure {A} exc.

(** [execute_concurrent_with_args(session, statement, parameters)] with its
    default [raise_on_first_error=True]: the results in the order of the
    parameters, unless a statement fails, which raises. *)
Fixpoint execute_concurrent_with_args {A P}
    (execute : P → result (list A)) (parameters : list P)
    : result (list (execution_result A)) :=
  match parameters with
  | [] => mret []
  | p :: parameters =>
      rows ← execute p;
      results ← execute_concurrent_with_args execute parameters;
      mret (Success rows :: results)
  end.

(** [result_set.one()]: the first row, or [None]. *)
Definition one {A} (result_set : list A) : option A := head result_set.

(** The body of [for (success, result) in results] in
    [get_last_update_time]. *)
Definition last_update_step (today : date)
    (update_time_so_far : option Datetime.datetime)
    (r : execution_result update_time_row)
    : result (option Datetime.datetime) :=
  match r with
  | Failure _ => mret update_time_so_far
  | Success result =>
      let result := one result in
      is_new ←
        match update_time_so_far with
        | None => mret true
        | Some _ => d ← getattr result day; mret (bool_decide (d = today))
        end;
      if is_new : bool then
        t ← getattr result update_time; mret (Some t)
      else mret update_time_so_far
  end.

(** [get_last_update_time(session)], for a session that answers the
    prepared statement with [execute], called on the date [today]. *)
Definition get_last_update_time
    (execute : date → result (list update_time_row)) (today : date)
    : result (option Datetime.datetime) :=
  let yesterday := today - 1 in
  results ← execute_concurrent_with_args execute [today; yesterday];
  for_each (last_update_step today) results None.

(** A session whose [update_time] table holds the rows [table]. *)
Definition session_of (table : list update_time_row) (d : date)
    : result (list update_time_row) :=
  mret (select_update_time table d).

(** ** Ingestion of the stop statistics *)

(** A [float] column of the store ([latitude], [longitude]), by the bit
    pattern of its IEEE 754 binary64.  The ingestion copies these floats
    and never computes with them. *)
Record float64 : Set := mk_float64 { float_bits : Z }.

(** [update_time.date()] *)
Definition date_of (update_time : Datetime.datetime) : Z * Z * Z :=
  (Datetime.year update_time, Datetime.month update_time,
   Datetime.day update_time).

(** A row of the table [stop], as the detail lookup returns it. *)
Record stop_row : Set := mk_stop_row {
  stop_code : string;
  stop_name : string;
  latitude : float64;
  longitude : float64;
  zone_id : string;
  location_type : Z;
  wheelchair_boarding : Z
}.

(** The values bound to [insert_stat] by one [batch.add], in the order of
    the columns of [stop_stat_by_time_test]. *)
Record stop_stat_insert : Set := mk_stop_stat_insert {
  ins_stop_id : string;
  ins_stop_code : string;
  ins_stop_name : string;
  ins_latitude : float64;
  ins_longitude : float64;
  ins_zone_id : string;
  ins_location_type : Z;
  ins_wheelchair_boarding : Z;
  ins_average_delay : Z;
  ins_median_delay : Z;
  ins_very_early_count : Z;
  ins_very_late_count : Z;
  ins_stop_count : Z;
  ins_day : Z * Z * Z;
  ins_update_time : Datetime.datetime
}.

(** The argument tuple of [batch.add(insert_stat, (...))]. *)
Definition stop_stat_values (stop_id : string) (stop_details : stop_row)
    (stats : stats) (update_time : Datetime.datetime) : stop_stat_insert :=
  {| ins_stop_id := stop_id;
     ins_stop_code := stop_code stop_details;
     ins_stop_name := stop_name stop_details;
     ins_latitude := latitude stop_details;
     ins_longitude := longitude stop_details;
     ins_zone_id := zone_id stop_details;
     ins_location_type := location_type stop_details;
     ins_wheelchair_boarding := wheelchair_boarding stop_details;
     ins_average_delay := mean stats;
     ins_median_delay := median stats;
     ins_very_early_count := very_early stats;
     ins_very_late_count := very_late stats;
     ins_stop_count := count stats;
     ins_day := date_of update_time;
     ins_update_time := update_time |}.

(** The local state of [ingest_stop_stats_by_time]: the open batch, the
    counter, and the batches handed to the session so far.  The list
    [results] is empty during the whole loop, so the branch
    [if len(results) > 10] never runs. *)
Record ingest_state : Set := mk_ingest_state {
  batch : list stop_stat_insert;
  batch_count : Z;
  executed : list (list stop_stat_insert)
}.

(** The body of [for stop_id, stats in stop_stats.items()].
    [stop_results[stop_id].result()] is the outcome of the detail lookup,
    a list of rows or the exception of the driver. *)
Definition ingest_stop (stop_results : gmap string (result (list stop_row)))
    (update_time : Datetime.datetime) (st : ingest_state)
    (item : string * stats) : result ingest_state :=
  let '(stop_id, stats) := item in
  let st :=
    if batch_count st =? 30
    then {| batch := []; batch_count := 0;
            executed := executed st ++ [batch st] |}
    else st in
  all_stop_details ← subscript (stop_results !! stop_id) ≫= λ future, future;
  match all_stop_details with
  | [] => mret st
  | stop_details :: _ =>
      mret {| batch :=
                batch st
                ++ [stop_stat_values stop_id stop_details stats update_time];
              batch_count := batch_count st + 1;
              executed := executed st |}
  end.

(** [ingest_stop_stats_by_time(session, stop_stats, stop_results,
    update_time)]: the batches the session receives, in order.  The last
    one is sent with [execute_async] and awaited. *)
Definition ingest_stop_stats_by_time (stop_stats : list (string * stats))
    (stop_results : gmap string (result (list stop_row)))
    (update_time : Datetime.datetime)
    : result (list (list stop_stat_insert)) :=
  st ← for_each (ingest_stop stop_results update_time) stop_stats
         {| batch := []; batch_count := 0; executed := [] |};
  mret (executed st ++ [batch st]).

(** ** Vehicle positions *)

(** The [timestamp] of a position record: integer epoch seconds, which
    [int] reads from the decimal string or number of the feed.  A position
    record is well-formed when [datetime] can represent its timestamp;
    the records below are the well-formed ones. *)
Record epoch : Set := mk_epoch {
  seconds : Z;
  seconds_in_range : Datetime.in_range seconds = true
}.

(** One element of the position snapshot:
    [{vehicle: {vehicle: {id, label}, trip: {routeId, directionId},
                currentStatus, currentStopSequence, stopId,
                position: {latitude, longitude}, timestamp}}]. *)
Record vehicle_id : Set := mk_vehicle_id {
  vi_id : string;
  vi_label : string
}.

Record position_trip : Set := mk_position_trip {
  pt_routeId : string;
  pt_directionId : Z
}.

Record position : Set := mk_position {
  pos_latitude : float64;
  pos_longitude : float64
}.

Record vehicle_position : Set := mk_vehicle_position {
  vp_vehicle : vehicle_id;
  vp_trip : position_trip;
  vp_currentStatus : string;
  vp_currentStopSequence : Z;
  vp_stopId : string;
  vp_position : position;
  vp_timestamp : epoch
}.

Record position_record : Set := mk_position_record {
  pr_vehicle : vehicle_position
}.

(** The tuple [params] of [read_position_update]. *)
Record position_params : Set := mk_position_params {
  pp_vehicle_id : string;
  pp_vehicle_label : string;
  pp_route_id : string;
  pp_direction_id : Z;
  pp_current_status : string;
  pp_stop_sequence : Z;
  pp_stop_id : string;
  pp_latitude : float64;
  pp_longitude : float64;
  pp_last_update : Datetime.datetime;
  pp_update_time : Datetime.datetime
}.

(** The body of [for update in data] in [read_position_update]. *)
Definition read_position (upload_time : Datetime.datetime)
    (results : list position_params) (update : position_record)
    : result (list position_params) :=
  let update := pr_vehicle update in
  last_update ← Datetime.fromtimestamp (seconds (vp_timestamp update));
  let params :=
    {| pp_vehicle_id := vi_id (vp_vehicle update);
       pp_vehicle_label := vi_label (vp_vehicle update);
       pp_route_id := pt_routeId (vp_trip update);
       pp_direction_id := pt_directionId (vp_trip update);
       pp_current_status := vp_currentStatus update;
       pp_stop_sequence := vp_currentStopSequence update;
       pp_stop_id := vp_stopId update;
       pp_latitude := pos_latitude (vp_position update);
       pp_longitude := pos_longitude (vp_position update);
       pp_last_update := last_update;
       pp_update_time := upload_time |} in
  mret (results ++ [params]).

Definition read_position_update (data : list position_record)
    (upload_time : Datetime.datetime) : result (list position_params) :=
  for_each (read_position upload_time) data [].

(** ** Notions used in the statements

    These definitions are not part of the code; the properties below are
    stated with them. *)

(** [min(delays)] and [max(delays)] of a non-empty list. *)
Definition minimum (delays : list Z) : Z := foldr Z.min (hd 0 delays) delays.
Definition maximum (delays : list Z) : Z := foldr Z.max (hd 0 delays) delays.

(** The arrival delays that the stop-time-updates of one trip carry for
    [stop_id]: those of the updates [get_stop_info] can parse, in feed
    order. *)
Definition arrival_delays (stop_id : string)
    (stop_time_updates : list stop_time_update) : list Z :=
  omap
    (λ stop,
       match get_stop_info stop with
       | Ok (Some (stop_id', delay, _)) =>
           if decide (stop_id' = stop_id) then Some delay else None
       | _ => None
       end)
    stop_time_updates.

(** Every bucket of the two dictionaries holds at least one delay. *)
Definition buckets_nonempty (st : read_state) : Prop :=
  map_Forall (λ _ delays, delays ≠ []) (routes st)
  ∧ map_Forall (λ _ delays, delays ≠ []) (stops st).

(** The statement that one item of [stop_stats] contributes: the values
    joined with the first row of its detail lookup, and none when the lookup
    has no row. *)
Definition stop_statement (stop_results : gmap string (result (list stop_row)))
    (update_time : Datetime.datetime) (item : string * stats)
    : option stop_stat_insert :=
  match stop_results !! item.1 with
  | Some (Ok (stop_details :: _)) =>
      Some (stop_stat_values item.1 stop_details item.2 update_time)
  | _ => None
  end.

(** What the loop maintains: the counter is the length of the open batch
    and no batch holds more than 30 statements. *)
Definition ingest_inv (st : ingest_state) : Prop :=
  batch_count st = Z.of_nat (length (batch st))
  ∧ (length (batch st) ≤ 30)%nat
  ∧ Forall (λ b, (length b ≤ 30)%nat) (executed st).

(** The statements added so far, in order. *)
Definition statements (st : ingest_state) : list stop_stat_insert :=
  concat (executed st) ++ batch st.

(** The epoch second [t] as a timestamp of the feed, when [datetime] can
    represent it. *)
Definition epoch_of (t : Z) : option epoch :=
  match decide (Datetime.in_range t = true) with
  | left H => Some (mk_epoch t H)
  | right _ => None
  end.

(** The inverse projection: the position record whose fields are those of
    the tuple, in the original order, the timestamp read back from the
    datetime with [datetime.timestamp()].  It is not part of the code; the
    round trip of the position parser is stated with it. *)
Definition serialize_position (params : position_params)
    : option position_record :=
  let '(secs, micros) := Datetime.timestamp (pp_last_update params) in
  if decide (micros = 0) then
    t ← epoch_of secs;
    Some {| pr_vehicle :=
      {| vp_vehicle :=
           {| vi_id := pp_vehicle_id params;
              vi_label := pp_vehicle_label params |};
         vp_trip :=
           {| pt_routeId := pp_route_id params;
              pt_directionId := pp_direction_id params |};
         vp_currentStatus := pp_current_status params;
         vp_currentStopSequence := pp_stop_sequence params;
         vp_stopId := pp_stop_id params;
         vp_position :=
           {| pos_latitude := pp_latitude params;
              pos_longitude := pp_longitude params |};
         vp_timestamp := t |} |}
  else None.

(** The tuple carries the nine copied fields of the record unchanged. *)
Definition position_fields_preserved (update : position_record)
    (params : position_params) : Prop :=
  let vehicle := pr_vehicle update in
  pp_vehicle_id params = vi_id (vp_vehicle vehicle)
  ∧ pp_vehicle_label params = vi_label (vp_vehicle vehicle)
  ∧ pp_route_id params = pt_routeId (vp_trip vehicle)
  ∧ pp_direction_id params = pt_directionId (vp_trip vehicle)
  ∧ pp_current_status params = vp_currentStatus vehicle
  ∧ pp_stop_sequence params = vp_currentStopSequence vehicle
  ∧ pp_stop_id params = vp_stopId vehicle
  ∧ pp_latitude params = pos_latitude (vp_position vehicle)
  ∧ pp_longitude params = pos_longitude (vp_position vehicle).

(** The round trip of one record through [read_position_update]. *)
Definition position_round_trip (upload_time : Datetime.datetime)
    (update : position_record) (params : position_params) : Prop :=
  position_fields_preserved update params
  ∧ Datetime.timestamp (pp_last_update params)
    = (seconds (vp_timestamp (pr_vehicle update)), 0)
  ∧ Datetime.tzinfo (pp_last_update params) = Some Datetime.utc
  ∧ pp_update_time params = upload_time
  ∧ serialize_position params = Some update.

(** ** Sample records

    Records in the shape of the feed, for the examples below. *)

(** 2024-11-26T16:00:55Z *)
Definition sample_time : Z := 1732636855.

(** A stop-time-update with every key. *)
Definition sample_stop (stop_sequence : Z) (stop_id : string) (delay : Z)
    : stop_time_update :=
  {| stu_stopSequence := Some stop_sequence;
     stu_arrival :=
       Some {| ste_delay := Some delay; ste_time := Some sample_time |};
     stu_departure :=
       Some {| ste_delay := Some delay; ste_time := Some sample_time |};
     stu_stopId := Some stop_id |}.

(** A stop-time-update without [arrival], as the feed has it for the
    first stop of a trip. *)
Definition sample_stop_without_arrival (stop_sequence : Z) (stop_id : string)
    : stop_time_update :=
  {| stu_stopSequence := Some stop_sequence;
     stu_arrival := None;
     stu_departure :=
       Some {| ste_delay := Some 0; ste_time := Some sample_time |};
     stu_stopId := Some stop_id |}.

(** A trip of route 6636, direction 0, with every key. *)
Definition sample_trip (trip_id : string)
    (stop_time_updates : list stop_time_update) : trip_record :=
  {| tr_id := Some trip_id;
     tr_tripUpdate :=
       Some {|
         tu_trip :=
           Some {| td_startDate := Some "20241126"%string;
                   td_scheduleRelationship := Some "SCHEDULED"%string;
                   td_routeId := Some "6636"%string;
                   td_directionId := Some 0 |};
         tu_vehicle := Some {| vd_label := Some "18309"%string |};
         tu_stopTimeUpdate := Some stop_time_updates
       |} |}.

(** A row of the table [stop], at 49.2827 N, 123.1207 W. *)
Definition sample_stop_row (code name : string) : stop_row :=
  {| stop_code := code; stop_name := name;
     latitude := mk_float64 4632132740726868515;
     longitude := mk_float64 13861736302832920612;
     zone_id := "BUS ZN"; location_type := 0; wheelchair_boarding := 1 |}.

(** The statistics of a single observation. *)
Definition sample_stats (delay : Z) : stats :=
  {| mean := delay; median := delay; count := 1;
     very_early := 0; very_late := 0 |}.

(** Thirty-one stops, one more than a batch holds, with the ids [A], [B],
    ..., their statistics, and detail lookups that all have a row. *)
Definition sample_stop_ids : list string :=
  (λ i, String (Ascii.ascii_of_nat (65 + i)) EmptyString) <$> seq 0 31.

Definition sample_stop_stats : list (string * stats) :=
  (λ stop_id, (stop_id, sample_stats 45)) <$> sample_stop_ids.

Definition sample_stop_results : gmap string (result (list stop_row)) :=
  list_to_map
    ((λ stop_id, (stop_id, Ok [sample_stop_row stop_id "Main St"]))
       <$> sample_stop_ids).

(** The observation that one trip record contributes to the route buckets:
    its route key and the arrival delay of its first stop-time-update. *)
Definition route_observation (trip_data : trip_record)
    : option (route_key * Z) :=
  match get_trip_info trip_data with
  | Ok (route_key, stop :: _, _, _) =>
      match get_stop_info stop with
      | Ok (Some (_, delay, _)) => Some (route_key, delay)
      | _ => None
      end
  | _ => None
  end.

(** The route observations of a snapshot for one route key, in feed
    order. *)
Definition route_delays (key : route_key) (data : list trip_record)
    : list Z :=
  omap
    (λ trip_data,
       match route_observation trip_data with
       | Some (key', delay) =>
           if decide (key' = key) then Some delay else None
       | None => None
       end)
    data.

(** The stop-time-updates of a trip record that [read_data] goes through:
    all of them when the record parses and its first one does, none
    otherwise. *)
Definition observed_stops (trip_data : trip_record)
    : list stop_time_update :=
  match get_trip_info trip_data with
  | Ok (_, stop_time_updates, _, _) =>
      match get_next_stop_info stop_time_updates with
      | Ok (Some _) => stop_time_updates
      | _ => []
      end
  | Raise _ => []
  end.

(** The stop observations of a snapshot for one stop id, in feed order. *)
Definition stop_delays (stop_id : string) (data : list trip_record)
    : list Z :=
  arrival_delays stop_id (data ≫= observed_stops).

(** The dictionary entry of a list of observations: no entry for none. *)
Definition bucket (delays : list Z) : option (list Z) :=
  match delays with
  | [] => None
  | _ => Some delays
  end.

(** The statistics of a bucket, when [get_stats] returns. *)
Definition stats_of (delays : list Z) : option stats :=
  match get_stats delays with
  | Ok s => Some s
  | Raise _ => None
  end.

(** One of the keys that [get_trip_info] subscripts is missing: [id],
    [tripUpdate], [trip], [startDate], [scheduleRelationship], [routeId],
    [directionId], [vehicle], [label] or [stopTimeUpdate]. *)
Definition trip_key_missing (trip_data : trip_record) : Prop :=
  tr_id trip_data = None
  ∨ match tr_tripUpdate trip_data with
    | None => True
    | Some trip_update =>
        match tu_trip trip_update with
        | None => True
        | Some trip =>
            td_startDate trip = None
            ∨ td_scheduleRelationship trip = None
            ∨ td_routeId trip = None
            ∨ td_directionId trip = None
        end
        ∨ match tu_vehicle trip_update with
          | None => True
          | Some vehicle => vd_label vehicle = None
          end
        ∨ tu_stopTimeUpdate trip_update = None
    end.

(** Reading the trip record raises no exception: the record is skipped,
    or [get_stop_info] returns on each of its stop-time-updates. *)
Definition trip_reads (trip_data : trip_record) : Prop :=
  match get_trip_info trip_data with
  | Ok (_, stop_time_updates, _, _) =>
      match get_next_stop_info stop_time_updates with
      | Ok (Some _) =>
          Forall (λ stop, ∃ info, get_stop_info stop = Ok info)
            stop_time_updates
      | Ok None => True
      | Raise _ => False
      end
  | Raise _ => True
  end.

(** The arrival time of the stop-time-update, when it has one, is one that
    [datetime] can represent. *)
Definition stop_time_in_range (stop : stop_time_update) : Prop :=
  ∀ a t, stu_arrival stop = Some a → ste_time a = Some t →
    Datetime.in_range t = true.

(** The same for every stop-time-update of the snapshot. *)
Definition times_in_range (data : list trip_record) : Prop :=
  ∀ trip_data trip_update stop_time_updates,
    trip_data ∈ data →
    tr_tripUpdate trip_data = Some trip_update →
    tu_stopTimeUpdate trip_update = Some stop_time_updates →
    Forall stop_time_in_range stop_time_updates.

(** ** The detail lookups

    [session.execute_async(query)] returns a future at once; the outcome of
    the request shows when the future is awaited with [result()].  A future
    is modelled by that outcome, and a session by the outcome it has for
    each query text. *)

(** The text of the query of [get_stop_data]; the stop id is put between
    the quotes as it is. *)
Definition stop_query (stop_id : string) : string :=
  "SELECT * FROM stop WHERE stop_id = '" +:+ stop_id +:+ "';".

(** [get_stop_data(session, stop_stats)], on the items of [stop_stats] in
    the order of the dictionary. *)
Definition get_stop_data (execute_async : string → result (list stop_row))
    (stop_stats : list (string * stats))
    : gmap string (result (list stop_row)) :=
  foldl
    (λ results stop_id,
       <[stop_id := execute_async (stop_query stop_id)]> results)
    ∅ stop_stats.*1.

(** What the batching loop maintains: the counter is the length of the open
    batch, which holds at most 30 statements, and every batch handed to the
    session during the loop holds exactly 30. *)
Definition ingest_full (st : ingest_state) : Prop :=
  batch_count st = Z.of_nat (length (batch st))
  ∧ (length (batch st) ≤ 30)%nat
  ∧ Forall (λ b, length b = 30%nat) (executed st).

(* ================================================================= *)
(** * Properties *)
(* ================================================================= *)

Example fromtimestamp_ex :
  Datetime.fromtimestamp 1732636855
  = Ok (Datetime.mk_datetime 2024 11 26 16 0 55 0 (Some Datetime.utc)).
Proof. reflexivity. Qed.

Example fromtimestamp_min :
  Datetime.fromtimestamp Datetime.MIN_TIMESTAMP
  = Ok (Datetime.mk_datetime 1 1 1 0 0 0 0 (Some Datetime.utc)).
Proof. reflexivity. Qed.

Example fromtimestamp_max :
  Datetime.fromtimestamp Datetime.MAX_TIMESTAMP
  = Ok (Datetime.mk_datetime 9999 12 31 23 59 59 0 (Some Datetime.utc)).
Proof. reflexivity. Qed.

Example fromtimestamp_over :
  Datetime.fromtimestamp (Datetime.MAX_TIMESTAMP + 1) = Raise ValueError.
Proof. reflexivity. Qed.

Example fromtimestamp_far :
  Datetime.fromtimestamp (10 ^ 17) = Raise OSError
  ∧ Datetime.fromtimestamp (2 ^ 63) = Raise OverflowError.
Proof. split; vm_compute; reflexivity. Qed.

Example fromtimestamp_leap :
  Datetime.fromtimestamp 1709164800
  = Ok (Datetime.mk_datetime 2024 2 29 0 0 0 0 (Some Datetime.utc)).
Proof. reflexivity. Qed.

(** ** The calendar round trip *)

Module DatetimeFacts.
Import Datetime.

Lemma forall_from_spec P len : ∀ lo k,
  forall_from P lo len = true → lo ≤ k < lo + Z.of_nat len → P k = true.
Proof.
  induction len as [|len IH]; intros lo k Hall Hk; simpl in Hall.
  - lia.
  - apply andb_true_iff in Hall as [Hlo Hrest].
    destruct (decide (k = lo)) as [->|Hne]; [done|].
    apply (IH (lo + 1)); [done|lia].
Qed.

Lemma month_day_correct (leapyear : bool) (n : Z) :
  0 ≤ n < 365 → month_day_ok leapyear n = true.
Proof.
  intros Hn.
  apply (forall_from_spec (month_day_ok leapyear) 365 0); [|lia].
  destruct leapyear; vm_compute; reflexivity.
Qed.

Lemma is_leap_digits (n400 n100 n4 n1 : Z) :
  0 ≤ n100 < 4 → 0 ≤ n4 < 25 → 0 ≤ n1 < 4 →
  is_leap (n400 * 400 + 1 + n100 * 100 + n4 * 4 + n1)
  = (n1 =? 3) && (negb (n4 =? 24) || (n100 =? 3)).
Proof.
  intros H100 H4 H1. unfold is_leap.
  repeat match goal with
  | |- context [?a =? ?b] => destruct (Z.eqb_spec a b)
  end; simpl; try reflexivity; exfalso;
  Z.div_mod_to_equations; lia.
Qed.

Lemma days_before_year_digits (n400 n100 n4 n1 : Z) :
  0 ≤ n100 < 4 → 0 ≤ n4 < 25 → 0 ≤ n1 < 4 →
  days_before_year (n400 * 400 + 1 + n100 * 100 + n4 * 4 + n1)
  = n400 * DI400Y + n100 * DI100Y + n4 * DI4Y + n1 * 365.
Proof.
  intros H100 H4 H1. unfold days_before_year, DI400Y, DI100Y, DI4Y.
  Z.div_mod_to_equations. lia.
Qed.

(** The shape of [ord2ymd]: the year digits, then the day of the year. *)
Lemma ord2ymd_digits (ordinal : Z) :
  ∃ n400 n100 n4 n1 n,
    ordinal - 1 = n400 * DI400Y + n100 * DI100Y + n4 * DI4Y + n1 * 365 + n
    ∧ 0 ≤ n100 ∧ 0 ≤ n4 ∧ 0 ≤ n1 ∧ 0 ≤ n < 365
    ∧ ((0 ≤ n100 < 4 ∧ 0 ≤ n4 < 25 ∧ 0 ≤ n1 < 4
        ∧ ord2ymd ordinal =
            (let leapyear :=
               (n1 =? 3) && (negb (n4 =? 24) || (n100 =? 3)) in
             (n400 * 400 + 1 + n100 * 100 + n4 * 4 + n1,
              (month_day leapyear n).1, (month_day leapyear n).2)))
       ∨ (((n100 = 4 ∧ n4 = 0 ∧ n1 = 0)
           ∨ (n100 < 4 ∧ n4 < 24 ∧ n1 = 4)) ∧ n = 0
          ∧ ord2ymd ordinal =
              (n400 * 400 + 1 + n100 * 100 + n4 * 4 + n1 - 1, 12, 31))).
Proof.
  unfold ord2ymd.
  set (n400 := (ordinal - 1) / DI400Y).
  set (r400 := (ordinal - 1) mod DI400Y).
  set (n100 := r400 / DI100Y). set (r100 := r400 mod DI100Y).
  set (n4 := r100 / DI4Y). set (r4 := r100 mod DI4Y).
  set (n1 := r4 / 365). set (n := r4 mod 365).
  exists n400, n100, n4, n1, n.
  assert (ordinal - 1 = n400 * DI400Y + r400 ∧ 0 ≤ r400 < DI400Y) as [E400 B400].
  { subst n400 r400. unfold DI400Y. Z.div_mod_to_equations. lia. }
  assert (r400 = n100 * DI100Y + r100 ∧ 0 ≤ r100 < DI100Y) as [E100 B100].
  { subst n100 r100. unfold DI100Y. Z.div_mod_to_equations. lia. }
  assert (r100 = n4 * DI4Y + r4 ∧ 0 ≤ r4 < DI4Y) as [E4 B4].
  { subst n4 r4. unfold DI4Y. Z.div_mod_to_equations. lia. }
  assert (r4 = n1 * 365 + n ∧ 0 ≤ n < 365) as [E1 B1].
  { subst n1 n. Z.div_mod_to_equations. lia. }
  clearbody n400 r400 n100 r100 n4 r4 n1 n.
  unfold DI400Y, DI100Y, DI4Y in *.
  split; [lia|]. split; [lia|]. split; [lia|]. split; [lia|].
  split; [lia|].
  destruct (Z.eqb_spec n1 4) as [H1|H1]; simpl.
  { right. split; [|split; [lia|reflexivity]]. right. lia. }
  destruct (Z.eqb_spec n100 4) as [H100|H100]; simpl.
  { right. split; [|split; [lia|reflexivity]]. left. lia. }
  left. split; [lia|]. split; [lia|]. split; [lia|].
  unfold month_day.
  destruct (n <? _); reflexivity.
Qed.

Lemma ymd2ord_ord2ymd (ordinal y m d : Z) :
  ord2ymd ordinal = (y, m, d) →
  ymd2ord y m d = ordinal
  ∧ 1 ≤ m ≤ 12 ∧ 1 ≤ d ≤ 31
  ∧ (1 ≤ ordinal ≤ 3652059 ↔ MINYEAR ≤ y ≤ MAXYEAR).
Proof.
  intros Hymd.
  destruct (ord2ymd_digits ordinal)
    as (n400 & n100 & n4 & n1 & n & Hord & P100 & P4 & P1 & Hn & Hcase).
  unfold ymd2ord, days_before_month, MINYEAR, MAXYEAR.
  destruct Hcase as [(H100 & H4 & H1 & Heq)|(Hdig & Hn0 & Heq)].
  - rewrite Hymd in Heq. simpl in Heq.
    set (leapyear := (n1 =? 3) && (negb (n4 =? 24) || (n100 =? 3))) in *.
    pose proof (month_day_correct leapyear n Hn) as Hmd.
    unfold month_day_ok in Hmd.
    destruct (month_day leapyear n) as [m' d'].
    simpl in Heq. injection Heq as -> -> ->.
    rewrite is_leap_digits by done. fold leapyear.
    rewrite days_before_year_digits by done.
    repeat (apply andb_true_iff in Hmd as [Hmd ?]).
    repeat match goal with
    | H : (_ <=? _) = true |- _ => apply Z.leb_le in H
    | H : (_ =? _) = true |- _ => apply Z.eqb_eq in H
    end.
    unfold DI400Y, DI100Y, DI4Y in *.
    destruct ((2 <? m') && leapyear); lia.
  - rewrite Hymd in Heq. injection Heq as -> -> ->. simpl.
    unfold DI400Y, DI100Y, DI4Y in *.
    destruct Hdig as [(-> & -> & ->)|(H100 & H4 & ->)].
    + replace (n400 * 400 + 1 + 4 * 100 + 0 * 4 + 0 - 1)
        with (n400 * 400 + 1 + 3 * 100 + 24 * 4 + 3) by lia.
      rewrite is_leap_digits, days_before_year_digits by lia.
      simpl. unfold DI400Y, DI100Y, DI4Y. lia.
    + replace (n400 * 400 + 1 + n100 * 100 + n4 * 4 + 4 - 1)
        with (n400 * 400 + 1 + n100 * 100 + n4 * 4 + 3) by lia.
      rewrite is_leap_digits, days_before_year_digits by lia.
      destruct (Z.eqb_spec n4 24) as [?|_]; [lia|].
      simpl. unfold DI400Y, DI100Y, DI4Y. lia.
Qed.

Lemma fromtimestamp_in_range (t : Z) :
  in_range t = true ↔ ∃ dt, fromtimestamp t = Ok dt.
Proof.
  unfold fromtimestamp, gmtime, in_range, MIN_TIMESTAMP, MAX_TIMESTAMP,
    TIME_T_MIN, TIME_T_MAX, INT_MIN, INT_MAX.
  destruct (ord2ymd (t / 86400 + EPOCH_ORDINAL)) as [[y m] d] eqn:Hymd.
  apply ymd2ord_ord2ymd in Hymd as (_ & _ & _ & Hyear).
  unfold EPOCH_ORDINAL in Hyear.
  rewrite andb_true_iff, !Z.leb_le.
  assert (MINYEAR ≤ y ≤ MAXYEAR ↔ -62135596800 ≤ t ≤ 253402300799) as Hy.
  { split.
    - intros Hy. apply Hyear in Hy. Z.div_mod_to_equations. lia.
    - intros Ht. apply Hyear. Z.div_mod_to_equations. lia. }
  clear Hyear. unfold MINYEAR, MAXYEAR in *.
  destruct (Z.ltb_spec t (-9223372036854775808)),
    (Z.ltb_spec 9223372036854775807 t); simpl;
    try (split; [lia|by intros [? [=]]]).
  destruct (Z.ltb_spec (y - 1900) (-2147483648)),
    (Z.ltb_spec 2147483647 (y - 1900)); simpl;
    try (split; [lia|by intros [? [=]]]).
  destruct (Z.leb_spec 1 y), (Z.leb_spec y 9999); simpl;
    try (split; [lia|by intros [? [=]]]).
  split; [eauto|lia].
Qed.

(** The exceptions of [fromtimestamp]; none of them is a [KeyError]. *)
Lemma fromtimestamp_Raise (t : Z) (e : exn) :
  fromtimestamp t = Raise e →
  e = ValueError ∨ e = OverflowError ∨ e = OSError.
Proof.
  unfold fromtimestamp.
  destruct (gmtime t) as [[[[[y m] d] hh] mm] ss].
  repeat case_match; intros [= <-]; auto.
Qed.

(** [fromtimestamp] is exact: the instant it returns is [t], to the
    second, in UTC. *)
Lemma timestamp_fromtimestamp (t : Z) (dt : datetime) :
  fromtimestamp t = Ok dt →
  timestamp dt = (t, 0) ∧ tzinfo dt = Some utc.
Proof.
  unfold fromtimestamp, gmtime, timestamp, toordinal.
  destruct (ord2ymd (t / 86400 + EPOCH_ORDINAL)) as [[y m] d] eqn:Hymd.
  apply ymd2ord_ord2ymd in Hymd as (Hord & _).
  destruct ((t <? TIME_T_MIN) || (TIME_T_MAX <? t)); [done|].
  destruct ((y - 1900 <? INT_MIN) || (INT_MAX <? y - 1900)); [done|].
  destruct ((MINYEAR <=? y) && (y <=? MAXYEAR)); [|done].
  intros [= <-]. simpl. rewrite Hord. split; [|done]. f_equal.
  Z.div_mod_to_equations. lia.
Qed.

End DatetimeFacts.

(** ** Floats *)

Section float_facts.

Lemma nearest_integer_between (n d lo hi : Z) :
  0 < d → lo * d ≤ n ≤ hi * d →
  lo ≤ Float.nearest_integer n d ≤ hi.
Proof.
  intros Hd [Hlo Hhi]. unfold Float.nearest_integer.
  assert (n = d * (n / d) + n mod d ∧ 0 ≤ n mod d < d) as [Hn Hr].
  { split; [apply Z.div_mod; lia|apply Z.mod_pos_bound; lia]. }
  set (q := n / d) in *. set (r := n mod d) in *. clearbody q r.
  assert (lo ≤ q) by nia.
  assert (q ≤ hi) by nia.
  assert (0 < r → q + 1 ≤ hi) by nia.
  repeat case_match; lia.
Qed.

(** [2 ^ ilog2 a b ≤ a / b] *)
Lemma ilog2_le (a b : Z) :
  0 < a → 0 < b →
  b * 2 ^ Z.max 0 (Float.ilog2 a b) ≤ a * 2 ^ Z.max 0 (- Float.ilog2 a b).
Proof.
  intros Ha Hb. unfold Float.ilog2.
  destruct (Z.log2_spec a Ha) as [Ha1 Ha2].
  destruct (Z.log2_spec b Hb) as [Hb1 Hb2].
  pose proof (Z.log2_nonneg a) as HA. pose proof (Z.log2_nonneg b) as HB.
  set (A := Z.log2 a) in *. set (B := Z.log2 b) in *. clearbody A B.
  destruct (Z.leb_spec (b * 2 ^ Z.max 0 (A - B)) (a * 2 ^ Z.max 0 (- (A - B))))
    as [Hle|Hgt]; [done|].
  rewrite Z.pow_succ_r in Ha2, Hb2 by done.
  destruct (Z.le_gt_cases 1 (A - B)) as [Hd|Hd].
  - replace (Z.max 0 (A - B - 1)) with (A - B - 1) by lia.
    replace (Z.max 0 (- (A - B - 1))) with 0 by lia.
    assert (2 ^ A = 2 ^ B * 2 ^ (A - B - 1) * 2) as HAB.
    { replace A with (B + (A - B - 1) + 1) at 1 by lia.
      by rewrite !Z.pow_add_r by lia. }
    assert (0 < 2 ^ (A - B - 1)) by (apply Z.pow_pos_nonneg; lia).
    nia.
  - replace (Z.max 0 (A - B - 1)) with 0 by lia.
    replace (Z.max 0 (- (A - B - 1))) with (B + 1 - A) by lia.
    assert (2 ^ B * 2 = 2 ^ A * 2 ^ (B + 1 - A)) as HAB.
    { replace (B + 1 - A) with (B - A + 1) by lia.
      replace B with (A + (B - A)) at 1 by lia.
      rewrite !Z.pow_add_r by lia. change (2 ^ 1) with 2. lia. }
    assert (0 < 2 ^ (B + 1 - A)) by (apply Z.pow_pos_nonneg; lia).
    nia.
Qed.

(** A quotient of magnitude at most [2^53] has its last bit at exponent 1
    at most, and at exponent 1 only when the magnitude is [2^53]. *)
Lemma exponent_small (a b : Z) :
  0 < b → Z.abs a ≤ 2 ^ 53 * b →
  Float.exponent a b ≤ 0
  ∨ Float.exponent a b = 1 ∧ Z.abs a = 2 ^ 53 * b.
Proof.
  intros Hb Ha. unfold Float.exponent.
  destruct (decide (a = 0)) as [->|Hne].
  { left. unfold Float.ilog2. change (Z.abs 0) with 0.
    change (Z.log2 0) with 0. pose proof (Z.log2_nonneg b).
    destruct (_ <=? _); lia. }
  pose proof (ilog2_le (Z.abs a) b ltac:(lia) Hb) as Hl.
  set (l := Float.ilog2 (Z.abs a) b) in *. clearbody l.
  destruct (Z.le_gt_cases l 52) as [?|Hl52]; [left; lia|].
  replace (Z.max 0 l) with (53 + (l - 53)) in Hl by lia.
  replace (Z.max 0 (- l)) with 0 in Hl by lia.
  rewrite Z.pow_add_r in Hl by lia.
  assert (0 < 2 ^ (l - 53)) as Hp by (apply Z.pow_pos_nonneg; lia).
  change (2 ^ 0) with 1 in Hl.
  assert (0 < 2 ^ 53) as H53 by done.
  set (P := 2 ^ 53) in *. clearbody P.
  destruct (decide (l = 53)) as [->|Hne53].
  - right. split; [lia|]. change (2 ^ (53 - 53)) with 1 in *. lia.
  - exfalso. assert (2 ≤ 2 ^ (l - 53)).
    { change 2 with (2 ^ 1) at 1. apply Z.pow_le_mono_r; lia. }
    nia.
Qed.

Lemma true_divide_between (a : Z) (b : positive) (lo hi : Z) :
  - 2 ^ 53 ≤ lo → hi ≤ 2 ^ 53 →
  lo * Z.pos b ≤ a ≤ hi * Z.pos b →
  ∃ x, Float.true_divide a b = Ok x
       ∧ (inject_Z lo <= x)%Q ∧ (x <= inject_Z hi)%Q.
Proof.
  intros Hlo Hhi [Ha1 Ha2]. unfold Float.true_divide.
  assert (2 ^ 53 < 2 ^ 1024) as Hmax by (apply Z.pow_lt_mono_r; lia).
  assert (0 < 2 ^ 53) as H53 by done.
  destruct (exponent_small a (Z.pos b)) as [He|[He Hab]]; [lia|nia| |].
  - set (e := Float.exponent a (Z.pos b)) in *. clearbody e.
    replace (Z.max 0 e) with 0 by lia. replace (Z.max 0 (- e)) with (- e) by lia.
    change (2 ^ 0) with 1. rewrite Z.mul_1_r.
    assert (0 < 2 ^ (- e)) as Hp by (apply Z.pow_pos_nonneg; lia).
    pose proof (nearest_integer_between (a * 2 ^ (- e)) (Z.pos b)
                  (lo * 2 ^ (- e)) (hi * 2 ^ (- e)) ltac:(lia) ltac:(nia))
      as Hm.
    set (m := Float.nearest_integer (a * 2 ^ (- e)) (Z.pos b)) in *.
    clearbody m.
    destruct (Z.leb_spec 0 e) as [He0|He0].
    + assert (e = 0) as -> by lia. change (2 ^ (- 0)) with 1 in *.
      change (2 ^ 0) with 1. rewrite Z.mul_1_r.
      destruct (Z.leb_spec (2 ^ 1024) (Z.abs m)) as [?|_]; [lia|].
      eexists. split; [reflexivity|].
      unfold Qle. cbn [Qnum Qden inject_Z]. lia.
    + eexists. split; [reflexivity|].
      unfold Qle. cbn [Qnum Qden inject_Z]. rewrite Z2Pos.id by done. lia.
  - rewrite He. change (Z.max 0 1) with 1. change (Z.max 0 (- (1))) with 0.
    change (2 ^ 0) with 1. change (2 ^ 1) with 2. rewrite Z.mul_1_r.
    change (0 <=? 1) with true. cbv iota.
    assert (a = 2 ^ 53 * Z.pos b ∨ a = - 2 ^ 53 * Z.pos b) as Hcase by lia.
    set (P := 2 ^ 53) in *. assert (P = 2 * 2 ^ 52) as HP by done.
    clearbody P.
    destruct Hcase as [Hpos|Hneg].
    + pose proof (nearest_integer_between a (Z.pos b * 2) (2 ^ 52) (2 ^ 52)
                    ltac:(lia) ltac:(lia)) as Hm.
      assert (Float.nearest_integer a (Z.pos b * 2) = 2 ^ 52) as -> by lia.
      destruct (Z.leb_spec (2 ^ 1024) (Z.abs (2 ^ 52) * 2)) as [?|_]; [lia|].
      eexists. split; [reflexivity|].
      unfold Qle. cbn [Qnum Qden inject_Z]. nia.
    + pose proof (nearest_integer_between a (Z.pos b * 2) (- 2 ^ 52) (- 2 ^ 52)
                    ltac:(lia) ltac:(lia)) as Hm.
      assert (Float.nearest_integer a (Z.pos b * 2) = - 2 ^ 52) as -> by lia.
      destruct (Z.leb_spec (2 ^ 1024) (Z.abs (- 2 ^ 52) * 2)) as [?|_]; [lia|].
      eexists. split; [reflexivity|].
      unfold Qle. cbn [Qnum Qden inject_Z]. nia.
Qed.

(** The only exception of a true division is [OverflowError]. *)
Lemma true_divide_Raise (a : Z) (b : positive) (e : exn) :
  Float.true_divide a b = Raise e → e = OverflowError.
Proof.
  unfold Float.true_divide. repeat case_match; intros [=]; done.
Qed.

End float_facts.

(** ** Statistics *)

Section stats_facts.

Lemma round_between (x : Q) (lo hi : Z) :
  (inject_Z lo <= x)%Q → (x <= inject_Z hi)%Q →
  lo ≤ Statistics.round x ≤ hi.
Proof.
  destruct x as [n d]. unfold Qle, Statistics.round. simpl.
  intros Hlo Hhi.
  assert (n = Z.pos d * (n / Z.pos d) + n mod Z.pos d
          ∧ 0 ≤ n mod Z.pos d < Z.pos d) as [Hn Hr].
  { split; [apply Z.div_mod; lia|apply Z.mod_pos_bound; lia]. }
  set (q := n / Z.pos d) in *. set (r := n mod Z.pos d) in *.
  clearbody q r.
  assert (lo ≤ q) by nia.
  assert (q ≤ hi) by nia.
  assert (0 < r → q + 1 ≤ hi) by nia.
  repeat case_match; lia.
Qed.

Lemma sum_between (lo hi : Z) (data : list Z) :
  Forall (λ d, lo ≤ d ≤ hi) data →
  lo * Z.of_nat (length data) ≤ Statistics.sum data
  ≤ hi * Z.of_nat (length data).
Proof.
  induction 1 as [|d data Hd _ IH]; simpl; [lia|].
  fold (Statistics.sum data). lia.
Qed.

Lemma mean_between (lo hi : Z) (data : list Z) :
  - 2 ^ 53 ≤ lo → hi ≤ 2 ^ 53 →
  data ≠ [] → Forall (λ d, lo ≤ d ≤ hi) data →
  ∃ x, Statistics.mean data = Ok x
       ∧ (inject_Z lo <= x)%Q ∧ (x <= inject_Z hi)%Q.
Proof.
  intros Hlo Hhi Hne Hall.
  pose proof (sum_between lo hi data Hall) as Hsum.
  destruct data as [|d data]; [done|]. unfold Statistics.mean.
  set (total := Statistics.sum (d :: data)) in *.
  assert (Z.pos (Pos.of_nat (length (d :: data)))
          = Z.of_nat (length (d :: data))) as Hn.
  { cbn [length]. by rewrite <- Pos.of_nat_succ, Zpos_P_of_succ_nat, Nat2Z.inj_succ. }
  set (n := Pos.of_nat (length (d :: data))) in *. rewrite <- Hn in Hsum.
  clearbody total n. cbv zeta.
  destruct (Z.eqb_spec (total mod Z.pos n) 0) as [Hmod|Hmod].
  - eexists. split; [reflexivity|].
    pose proof (Z.div_mod total (Z.pos n) ltac:(done)) as Hdiv.
    unfold Qle. cbn [Qnum Qden inject_Z]. nia.
  - by apply true_divide_between.
Qed.

Lemma nth_between (lo hi : Z) (data : list Z) (i : nat) :
  Forall (λ d, lo ≤ d ≤ hi) data → (i < length data)%nat →
  lo ≤ nth i data 0 ≤ hi.
Proof.
  intros Hall Hi. rewrite Forall_forall in Hall.
  apply Hall, list_elem_of_In, nth_In, Hi.
Qed.

Lemma sorted_between (lo hi : Z) (data : list Z) :
  Forall (λ d, lo ≤ d ≤ hi) data →
  Forall (λ d, lo ≤ d ≤ hi) (Statistics.sorted data).
Proof.
  intros Hall. unfold Statistics.sorted.
  by rewrite merge_sort_Permutation.
Qed.

Lemma sorted_length (data : list Z) :
  length (Statistics.sorted data) = length data.
Proof.
  unfold Statistics.sorted. by rewrite merge_sort_Permutation.
Qed.

Lemma median_between (lo hi : Z) (data : list Z) :
  - 2 ^ 53 ≤ lo → hi ≤ 2 ^ 53 →
  data ≠ [] → Forall (λ d, lo ≤ d ≤ hi) data →
  ∃ x, Statistics.median data = Ok x
       ∧ (inject_Z lo <= x)%Q ∧ (x <= inject_Z hi)%Q.
Proof.
  intros Hlo Hhi Hne Hall. unfold Statistics.median.
  apply sorted_between in Hall.
  assert (length (Statistics.sorted data) ≠ 0%nat) as Hlen.
  { rewrite sorted_length. by destruct data. }
  set (s := Statistics.sorted data) in *. clearbody s.
  destruct (decide (length s = 0%nat)) as [?|_]; [done|].
  assert (length s `div` 2 < length s)%nat as Hi.
  { apply Nat.div_lt; lia. }
  destruct (decide (length s `mod` 2 = 1)%nat) as [Hodd|Heven].
  - eexists. split; [reflexivity|].
    pose proof (nth_between _ _ _ _ Hall Hi).
    unfold Qle. cbn [Qnum Qden inject_Z]. lia.
  - pose proof (nth_between _ _ _ _ Hall Hi).
    assert (length s `div` 2 - 1 < length s)%nat as Hj by lia.
    pose proof (nth_between _ _ _ _ Hall Hj).
    apply true_divide_between; lia.
Qed.

Lemma indicators_le_length (p q : Z → bool) (data : list Z) :
  (∀ d, p d = true → q d = true → False) →
  0 ≤ Statistics.sum ((λ d, if p d then 1 else 0) <$> data)
  ∧ 0 ≤ Statistics.sum ((λ d, if q d then 1 else 0) <$> data)
  ∧ Statistics.sum ((λ d, if p d then 1 else 0) <$> data)
    + Statistics.sum ((λ d, if q d then 1 else 0) <$> data)
    ≤ Z.of_nat (length data).
Proof.
  intros Hdisj. induction data as [|d data IH]; [simpl; lia|].
  rewrite !fmap_cons. cbn [Statistics.sum foldr length].
  fold (Statistics.sum ((λ d, if p d then 1 else 0) <$> data)).
  fold (Statistics.sum ((λ d, if q d then 1 else 0) <$> data)).
  specialize (Hdisj d).
  destruct (p d), (q d); [exfalso; auto|lia..].
Qed.

Lemma minimum_maximum (delays : list Z) :
  Forall (λ d, minimum delays ≤ d ≤ maximum delays) delays.
Proof.
  unfold minimum, maximum. generalize (hd 0 delays). intros d0.
  induction delays as [|d delays IH]; simpl; constructor; [lia|].
  eapply Forall_impl; [exact IH|]. simpl. lia.
Qed.

Lemma minimum_maximum_between (lo hi : Z) (delays : list Z) :
  delays ≠ [] → Forall (λ d, lo ≤ d ≤ hi) delays →
  lo ≤ minimum delays ∧ maximum delays ≤ hi.
Proof.
  intros Hne Hall. unfold minimum, maximum.
  assert (lo ≤ hd 0 delays ≤ hi) as Hhd.
  { destruct delays as [|d delays]; [done|]. by apply Forall_cons in Hall as [? _]. }
  revert Hhd. generalize (hd 0 delays). intros d0 Hd0. clear Hne.
  induction Hall as [|d delays Hd _ IH]; simpl; lia.
Qed.

Lemma get_stats_between (lo hi : Z) (delays : list Z) :
  - 2 ^ 53 ≤ lo → hi ≤ 2 ^ 53 →
  delays ≠ [] → Forall (λ d, lo ≤ d ≤ hi) delays →
  ∃ s, get_stats delays = Ok s
       ∧ lo ≤ mean s ≤ hi ∧ lo ≤ median s ≤ hi
       ∧ 0 ≤ very_early s ∧ 0 ≤ very_late s
       ∧ very_early s + very_late s ≤ count s.
Proof.
  intros Hlo Hhi Hne Hall. unfold get_stats.
  destruct (mean_between lo hi delays Hlo Hhi Hne Hall)
    as (m & -> & Hm1 & Hm2).
  destruct (median_between lo hi delays Hlo Hhi Hne Hall)
    as (md & -> & Hd1 & Hd2).
  eexists. split; [reflexivity|]. simpl.
  split; [by apply round_between|]. split; [by apply round_between|].
  apply indicators_le_length. unfold HIGH_DELAY. intros d. lia.
Qed.

End stats_facts.

(** C5 (as amended).  For every non-empty list of integer delays of
    magnitude at most [2^53], [get_stats] returns statistics with
    [very_early + very_late ≤ count], and its rounded mean and rounded
    median both lie in [[min(delays), max(delays)]]. *)
Theorem get_stats_bounds (delays : list Z) :
  delays ≠ [] → Forall (λ d, - 2 ^ 53 ≤ d ≤ 2 ^ 53) delays →
  ∃ s, get_stats delays = Ok s
       ∧ very_early s + very_late s ≤ count s
       ∧ minimum delays ≤ mean s ≤ maximum delays
       ∧ minimum delays ≤ median s ≤ maximum delays.
Proof.
  intros Hne Hall.
  destruct (minimum_maximum_between _ _ delays Hne Hall) as [Hmin Hmax].
  destruct (get_stats_between _ _ delays Hmin Hmax Hne
              (minimum_maximum delays))
    as (s & Hs & Hmean & Hmedian & _ & _ & Hcount).
  by exists s.
Qed.

Lemma get_stats_bounds_witness :
  ∃ s, get_stats [-310; -5; 0; 301; 50] = Ok s
       ∧ very_early s + very_late s ≤ count s
       ∧ minimum [-310; -5; 0; 301; 50] ≤ mean s
         ≤ maximum [-310; -5; 0; 301; 50]
       ∧ minimum [-310; -5; 0; 301; 50] ≤ median s
         ≤ maximum [-310; -5; 0; 301; 50].
Proof.
  apply get_stats_bounds; [done|].
  repeat first [apply Forall_nil_2 | apply Forall_cons_2; [lia|]].
Defined.

(** C5 as stated fails: the mean of [[2^54 + 1, 2^54 + 2]] is the float
    nearest to [2^54 + 1.5], which is [2^54], and so is the median; both
    are below the least delay. *)
Lemma get_stats_below_minimum :
  let delays := [2 ^ 54 + 1; 2 ^ 54 + 2] in
  delays ≠ []
  ∧ ∃ s, get_stats delays = Ok s
         ∧ mean s = 2 ^ 54 ∧ median s = 2 ^ 54
         ∧ mean s < minimum delays ∧ median s < minimum delays.
Proof.
  split; [done|]. eexists. split; [vm_compute; reflexivity|].
  repeat split; vm_compute; reflexivity.
Qed.

(** C4 (as amended).  On [[-310, -5, 0, 301, 50]] the delays sum to 36, so
    [get_stats] returns mean [round(7.2) = 7], median 0, count 5,
    very_early 1 and very_late 1. *)
Theorem get_stats_scenario :
  get_stats [-310; -5; 0; 301; 50]
  = Ok {| mean := 7; median := 0; count := 5;
          very_early := 1; very_late := 1 |}.
Proof. vm_compute. reflexivity. Qed.

(** C4 as stated fails: the mean of the scenario is not -1. *)
Lemma get_stats_scenario_mean_not_minus_one :
  get_stats [-310; -5; 0; 301; 50]
  ≠ Ok {| mean := -1; median := 0; count := 5;
          very_early := 1; very_late := 1 |}.
Proof. vm_compute. discriminate. Qed.

(** ** Parsing a stop-time-update *)

Section stop_info.

Lemma fromtimestamp_epoch (t : epoch) :
  ∃ dt, Datetime.fromtimestamp (seconds t) = Ok dt.
Proof. apply DatetimeFacts.fromtimestamp_in_range, seconds_in_range. Qed.

(** [datetime.fromtimestamp] returns on the instants of the years 1 to
    9999 and raises on the others. *)
Lemma fromtimestamp_cases (t : Z) :
  if Datetime.in_range t
  then ∃ dt, Datetime.fromtimestamp t = Ok dt
  else ∃ e, Datetime.fromtimestamp t = Raise e
            ∧ (e = ValueError ∨ e = OverflowError ∨ e = OSError).
Proof.
  pose proof (DatetimeFacts.fromtimestamp_in_range t) as Hrange.
  destruct (Datetime.in_range t); [by apply Hrange|].
  destruct (Datetime.fromtimestamp t) as [dt|e] eqn:Ht.
  - destruct Hrange as [_ Hrange]. discriminate Hrange. by eexists.
  - exists e. split; [done|]. by eapply DatetimeFacts.fromtimestamp_Raise.
Qed.

(** [get_stop_info], case by case: the keys are read in the order
    [stopSequence], [arrival.delay], [arrival.time], [departure.delay],
    [stopId], and the time is converted as soon as it is read. *)
Lemma get_stop_info_cases (stop : stop_time_update) :
  get_stop_info stop
  = match stu_stopSequence stop, stu_arrival stop with
    | Some _, Some {| ste_delay := Some delay; ste_time := Some t |} =>
        match Datetime.fromtimestamp t with
        | Ok arrival_time =>
            match stu_departure stop, stu_stopId stop with
            | Some {| ste_delay := Some _ |}, Some stop_id =>
                Ok (Some (stop_id, delay, arrival_time))
            | _, _ => Ok None
            end
        | Raise e => Raise e
        end
    | _, _ => Ok None
    end.
Proof.
  destruct stop as [[seq|] [[[d|] [t|]]|] [[[dd|] dt]|] [sid|]];
    try reflexivity;
    unfold get_stop_info; cbn -[Datetime.fromtimestamp];
    destruct (Datetime.fromtimestamp t) as [at_|e] eqn:Ht; cbn;
    try reflexivity;
    by destruct (DatetimeFacts.fromtimestamp_Raise _ _ Ht) as [-> | [-> | ->]].
Qed.

(** The exceptions of [get_stop_info] are those of the conversion; a
    [KeyError] never leaves it. *)
Lemma get_stop_info_Raise (stop : stop_time_update) (e : exn) :
  get_stop_info stop = Raise e →
  e = ValueError ∨ e = OverflowError ∨ e = OSError.
Proof.
  rewrite get_stop_info_cases.
  destruct (stu_stopSequence stop); [|done].
  destruct (stu_arrival stop) as [[[delay|] [t|]]|]; try done.
  destruct (Datetime.fromtimestamp t) as [dt|e'] eqn:Ht.
  - repeat case_match; done.
  - intros [= <-]. by eapply DatetimeFacts.fromtimestamp_Raise.
Qed.

Lemma read_stop_Ok (trip_id : string) (st st' : read_state)
    (stop : stop_time_update) :
  read_stop trip_id st stop = Ok st' →
  (∃ info, get_stop_info stop = Ok info)
  ∧ routes st' = routes st
  ∧ stops st' =
      match get_stop_info stop with
      | Ok (Some (stop_id, delay, _)) =>
          append_delay stop_id delay (stops st)
      | _ => stops st
      end.
Proof.
  unfold read_stop. destruct (get_stop_info stop) as [info|e]; [|done].
  destruct info as [[[stop_id delay] arrival]|]; simpl; intros [= <-]; eauto.
Qed.

Lemma read_stop_Raise (trip_id : string) (st : read_state)
    (stop : stop_time_update) (e : exn) :
  read_stop trip_id st stop = Raise e →
  e = ValueError ∨ e = OverflowError ∨ e = OSError.
Proof.
  unfold read_stop.
  destruct (get_stop_info stop) as [[[[stop_id delay] arrival]|]|e'] eqn:Hstop;
    simpl; intros [= <-]. by apply get_stop_info_Raise in Hstop.
Qed.

End stop_info.

(** C10 (as amended).  When [stopSequence], the [arrival] object or its
    [delay] or [time] is missing, [get_stop_info] returns [None] and does
    not raise.  When [stopId], the [departure] object or its [delay] is
    missing, it returns [None] provided [datetime] can represent the
    arrival time, which is converted before these keys are read.  In both
    cases the update contributes no observation: the body of the loop over
    the stop-time-updates leaves the state as it is. *)
Theorem get_stop_info_missing_key (stop : stop_time_update) :
  stu_stopSequence stop = None
  ∨ stu_arrival stop = None
  ∨ (∃ a, stu_arrival stop = Some a
          ∧ (ste_delay a = None ∨ ste_time a = None))
  ∨ (stu_stopId stop = None
     ∨ stu_departure stop = None
     ∨ (∃ d, stu_departure stop = Some d ∧ ste_delay d = None))
    ∧ (∀ a t, stu_arrival stop = Some a → ste_time a = Some t →
         Datetime.in_range t = true) →
  get_stop_info stop = Ok None
  ∧ ∀ trip_id st, read_stop trip_id st stop = Ok st.
Proof.
  intros Hmissing.
  assert (get_stop_info stop = Ok None) as Hnone.
  { rewrite get_stop_info_cases.
    destruct stop as [[seq|] [[[d|] [t|]]|] [[[dd|] dt]|] [sid|]];
      try reflexivity; cbn -[Datetime.fromtimestamp] in *;
      try (pose proof (fromtimestamp_cases t) as Ht;
           destruct Hmissing
             as [?|[?|[(a & [= <-] & [?|?])|[_ Hrange]]]]; try done;
           rewrite (Hrange _ t eq_refl eq_refl) in Ht;
           by destruct Ht as [at_ ->]).
    exfalso.
    destruct Hmissing
      as [?|[?|[(a & [= <-] & [?|?])
               |[[?|[?|(a & [= <-] & ?)]] _]]]]; done. }
  split; [done|]. intros trip_id st. unfold read_stop. by rewrite Hnone.
Qed.

Lemma get_stop_info_missing_key_witness :
  let stop :=
    {| stu_stopSequence := Some 7;
       stu_arrival :=
         Some {| ste_delay := Some 45; ste_time := Some sample_time |};
       stu_departure := Some {| ste_delay := Some 0; ste_time := None |};
       stu_stopId := None |} in
  get_stop_info stop = Ok None
  ∧ ∀ trip_id st, read_stop trip_id st stop = Ok st.
Proof.
  apply get_stop_info_missing_key. right. right. right. split.
  - left. reflexivity.
  - intros a t [= <-] [= <-]. reflexivity.
Defined.

(** C10 as stated fails: in this stop-time-update [stopId] is missing and
    the arrival time is the first second of the year 10000.  The time is
    converted before [stopId] is read, and [get_stop_info] raises
    [ValueError], which [except KeyError] does not catch. *)
Lemma get_stop_info_missing_stop_id_raises :
  let stop :=
    {| stu_stopSequence := Some 7;
       stu_arrival :=
         Some {| ste_delay := Some 45; ste_time := Some 253402300800 |};
       stu_departure :=
         Some {| ste_delay := Some 45; ste_time := Some 253402300800 |};
       stu_stopId := None |} in
  stu_stopId stop = None
  ∧ get_stop_info stop = Raise ValueError
  ∧ ∀ trip_id st, read_stop trip_id st stop = Raise ValueError.
Proof. split; [done|]. split; [|intros trip_id st]; reflexivity. Qed.

(** ** Aggregation *)

Section aggregation.

Lemma for_each_app {S A} (body : S → A → result S) (l1 l2 : list A) (s : S) :
  for_each body (l1 ++ l2) s = for_each body l1 s ≫= for_each body l2.
Proof.
  revert s. induction l1 as [|a l1 IH]; intros s; simpl; [done|].
  destruct (body s a) as [s'|e]; simpl; [apply IH|done].
Qed.

Context `{Countable K}.

Lemma lookup_append_delay_eq (key : K) (delay : Z) (d : gmap K (list Z)) :
  append_delay key delay d !! key = Some (default [] (d !! key) ++ [delay]).
Proof.
  unfold append_delay. destruct (d !! key) as [delays|] eqn:Hkey; simpl;
    by rewrite lookup_insert_eq.
Qed.

Lemma lookup_append_delay_ne (key key' : K) (delay : Z)
    (d : gmap K (list Z)) :
  key ≠ key' → append_delay key delay d !! key' = d !! key'.
Proof.
  intros Hne. unfold append_delay.
  destruct (d !! key); by rewrite lookup_insert_ne.
Qed.

Lemma append_delay_nonempty (key : K) (delay : Z) (d : gmap K (list Z)) :
  map_Forall (λ _ delays, delays ≠ []) d →
  map_Forall (λ _ delays, delays ≠ []) (append_delay key delay d).
Proof.
  intros Hd key' delays.
  destruct (decide (key = key')) as [<-|Hne].
  - rewrite lookup_append_delay_eq. intros [= <-].
    by destruct (default [] (d !! key)).
  - rewrite lookup_append_delay_ne by done. apply Hd.
Qed.

End aggregation.

Section read_data_facts.

Lemma arrival_delays_cons (stop_id : string) (stop : stop_time_update)
    (stus : list stop_time_update) :
  arrival_delays stop_id (stop :: stus)
  = match get_stop_info stop with
    | Ok (Some (stop_id', delay, _)) =>
        if decide (stop_id' = stop_id) then [delay] else []
    | _ => []
    end ++ arrival_delays stop_id stus.
Proof.
  unfold arrival_delays. cbn [omap list_omap].
  destruct (get_stop_info stop) as [[[[sid d] a]|]|]; try done.
  by destruct (decide (sid = stop_id)).
Qed.

Lemma for_each_cons_Ok {S A} (body : S → A → result S) (a : A) (l : list A)
    (s s' : S) :
  for_each body (a :: l) s = Ok s' →
  ∃ s1, body s a = Ok s1 ∧ for_each body l s1 = Ok s'.
Proof. simpl. destruct (body s a) as [s1|e]; [eauto|done]. Qed.

Lemma for_each_Raise {S A} (body : S → A → result S) (P : exn → Prop)
    (l : list A) (s : S) (e : exn) :
  (∀ s a e, body s a = Raise e → P e) →
  for_each body l s = Raise e → P e.
Proof.
  intros Hbody. revert s. induction l as [|a l IH]; intros s; [done|].
  simpl. destruct (body s a) as [s1|e1] eqn:Ha; simpl; [apply IH|].
  intros [= <-]. by eapply Hbody.
Qed.

(** The loop over the stop-time-updates of one trip. *)
Lemma read_stops_Ok (trip_id : string) (stus : list stop_time_update)
    (st st' : read_state) :
  for_each (read_stop trip_id) stus st = Ok st' →
  routes st' = routes st
  ∧ (∀ stop_id,
       default [] (stops st' !! stop_id)
       = default [] (stops st !! stop_id) ++ arrival_delays stop_id stus)
  ∧ (buckets_nonempty st → buckets_nonempty st').
Proof.
  revert st. induction stus as [|stop stus IH]; intros st.
  { intros [= <-]. split; [done|]. split; [|done].
    intros stop_id. by rewrite app_nil_r. }
  intros (st1 & Hst1 & Hst')%for_each_cons_Ok.
  apply read_stop_Ok in Hst1 as (_ & Hr1 & Hs1).
  apply IH in Hst' as (Hr' & Hs' & Hinv').
  split; [congruence|]. split.
  - intros stop_id. rewrite Hs', Hs1, arrival_delays_cons, app_assoc.
    f_equal.
    destruct (get_stop_info stop) as [[[[sid d] a]|]|];
      try by rewrite app_nil_r.
    destruct (decide (sid = stop_id)) as [->|Hne].
    + by rewrite lookup_append_delay_eq.
    + by rewrite lookup_append_delay_ne, app_nil_r.
  - intros [Hroutes Hstops]. apply Hinv'. split; [by rewrite Hr1|].
    rewrite Hs1.
    destruct (get_stop_info stop) as [[[[sid d] a]|]|]; try done.
    by apply append_delay_nonempty.
Qed.

Lemma get_trip_info_Raise (trip_data : trip_record) (e : exn) :
  get_trip_info trip_data = Raise e → e = KeyError.
Proof.
  unfold get_trip_info. intros Htrip.
  repeat match type of Htrip with
  | context [subscript ?field] =>
      destruct field; simpl in Htrip; [|congruence]
  end.
  discriminate.
Qed.

(** One iteration of the loop over the trips. *)
Lemma read_trip_Ok (st st' : read_state) (trip_data : trip_record) :
  read_trip st trip_data = Ok st' →
  (buckets_nonempty st → buckets_nonempty st')
  ∧ match get_trip_info trip_data with
    | Ok (route_key, stop_time_updates, _, _) =>
        match get_next_stop_info stop_time_updates with
        | Ok (Some (_, delay, _)) =>
            routes st' = append_delay route_key delay (routes st)
            ∧ ∀ stop_id,
                default [] (stops st' !! stop_id)
                = default [] (stops st !! stop_id)
                  ++ arrival_delays stop_id stop_time_updates
        | Ok None => st' = st
        | Raise _ => False
        end
    | Raise _ => st' = st
    end.
Proof.
  unfold read_trip.
  destruct (get_trip_info trip_data) as [[[[key stus] tid] v]|e] eqn:Htrip.
  - destruct (get_next_stop_info stus) as [info|e]; [|done]. simpl.
    destruct info as [[[sid delay] arrival]|]; [|by intros [= <-]].
    intros (Hr & Hs & Hinv)%read_stops_Ok. simpl in *.
    split; [|done]. intros [Hroutes Hstops]. apply Hinv. split; [|done].
    by apply append_delay_nonempty.
  - apply get_trip_info_Raise in Htrip as ->. by intros [= <-].
Qed.

(** The exceptions of an iteration are those of a time that [datetime]
    cannot represent: a missing key never shows. *)
Lemma read_trip_Raise (st : read_state) (trip_data : trip_record)
    (e : exn) :
  read_trip st trip_data = Raise e →
  e = ValueError ∨ e = OverflowError ∨ e = OSError.
Proof.
  unfold read_trip.
  destruct (get_trip_info trip_data) as [[[[key stus] tid] v]|e'] eqn:Htrip.
  - destruct (get_next_stop_info stus) as [info|e'] eqn:Hinfo; simpl.
    + destruct info as [[[sid delay] arrival]|]; [|done].
      apply (for_each_Raise _
               (λ e, e = ValueError ∨ e = OverflowError ∨ e = OSError)).
      intros ???. apply read_stop_Raise.
    + intros [= <-]. destruct stus as [|stop stus]; [done|].
      by apply get_stop_info_Raise in Hinfo.
  - by apply get_trip_info_Raise in Htrip as ->.
Qed.

Lemma read_trips_Ok (data : list trip_record) (st st' : read_state) :
  for_each read_trip data st = Ok st' →
  buckets_nonempty st → buckets_nonempty st'.
Proof.
  revert st. induction data as [|trip_data data IH]; intros st.
  { by intros [= <-]. }
  intros (st1 & Hst1 & Hst')%for_each_cons_Ok Hinv.
  apply (IH st1); [done|]. by apply (read_trip_Ok st st1 trip_data).
Qed.

Lemma read_data_Ok (data : list trip_record)
    (routes' : gmap route_key (list Z)) (stops' : gmap string (list Z)) :
  read_data data = Ok (routes', stops') →
  ∃ st, for_each read_trip data (mk_read_state ∅ ∅ ∅) = Ok st
        ∧ routes' = routes st ∧ stops' = stops st.
Proof.
  unfold read_data.
  destruct (for_each read_trip data (mk_read_state ∅ ∅ ∅)) as [st|e];
    [|done].
  intros [= <- <-]. by exists st.
Qed.

(** Reading one more trip at the end of a snapshot. *)
Lemma read_data_snoc (data : list trip_record) (trip_data : trip_record)
    (routes' : gmap route_key (list Z)) (stops' : gmap string (list Z)) :
  read_data (data ++ [trip_data]) = Ok (routes', stops') →
  ∃ st st',
    read_data data = Ok (routes st, stops st)
    ∧ read_trip st trip_data = Ok st'
    ∧ routes' = routes st' ∧ stops' = stops st'.
Proof.
  intros (st' & Hst' & -> & ->)%read_data_Ok.
  rewrite for_each_app in Hst'. unfold read_data.
  destruct (for_each read_trip data (mk_read_state ∅ ∅ ∅)) as [st|e];
    [|done].
  simpl in Hst'. destruct (read_trip st trip_data) as [st1|e] eqn:Hst1;
    [|done].
  injection Hst' as ->. by exists st, st'.
Qed.

(** [get_stats] raises [StatisticsError] on the empty list and on no
    other; its only other exception is the [OverflowError] of a mean or
    median too large for a float. *)
Lemma get_stats_Raise (delays : list Z) (e : exn) :
  get_stats delays = Raise e →
  e = StatisticsError ∧ delays = []
  ∨ e = OverflowError ∧ delays ≠ [].
Proof.
  destruct delays as [|d delays]; [intros [= <-]; by left|].
  intros Hs. right. split; [|done]. unfold get_stats in Hs.
  destruct (Statistics.mean (d :: delays)) as [m|e1] eqn:Hmean.
  - destruct (Statistics.median (d :: delays)) as [md|e2] eqn:Hmedian;
      [done|].
    injection Hs as <-. unfold Statistics.median in Hmedian.
    repeat case_decide; try done.
    + by rewrite sorted_length in *.
    + by apply true_divide_Raise in Hmedian.
  - injection Hs as <-. unfold Statistics.mean in Hmean.
    case_match; [done|]. by apply true_divide_Raise in Hmean.
Qed.

(** The statistics loop on non-empty buckets does not raise
    [StatisticsError]. *)
Lemma stats_loop_nonempty `{Countable K} (items : list (K * list Z))
    (acc : gmap K stats) :
  Forall (λ item, item.2 ≠ []) items →
  for_each
    (λ out '(key, delays),
       stats ← get_stats delays; mret (<[key := stats]> out))
    items acc ≠ Raise StatisticsError.
Proof.
  intros Hall. revert acc.
  induction Hall as [|[key delays] items Hne _ IH]; intros acc; [done|].
  simpl in *. destruct (get_stats delays) as [s|e] eqn:Hs; simpl; [apply IH|].
  apply get_stats_Raise in Hs as [[_ ?]|[-> _]]; done.
Qed.

End read_data_facts.

(** C1 (as amended).  Reading a trip record that parses adds exactly one
    observation to the bucket of its route key, the arrival delay of its
    first stop-time-update, and leaves every other route bucket as it was,
    provided that first stop-time-update parses.  A trip with no
    stop-time-update, or whose first stop-time-update does not parse,
    contributes no route observation. *)
Theorem read_data_route_observation (data : list trip_record)
    (trip_data : trip_record) (route_key : route_key)
    (stop_time_updates : list stop_time_update) (trip_id vehicle : string)
    (routes routes' : gmap (string * Z) (list Z))
    (stops stops' : gmap string (list Z)) :
  get_trip_info trip_data
  = Ok (route_key, stop_time_updates, trip_id, vehicle) →
  read_data data = Ok (routes, stops) →
  read_data (data ++ [trip_data]) = Ok (routes', stops') →
  match stop_time_updates with
  | [] => routes' = routes
  | stop :: _ =>
      match get_stop_info stop with
      | Ok (Some (_, delay, _)) =>
          routes' !! route_key
          = Some (default [] (routes !! route_key) ++ [delay])
          ∧ ∀ key, key ≠ route_key → routes' !! key = routes !! key
      | _ => routes' = routes
      end
  end.
Proof.
  intros Htrip Hd (st & st' & Hst & Hst' & -> & ->)%read_data_snoc.
  rewrite Hd in Hst. injection Hst as -> ->.
  apply read_trip_Ok in Hst' as [_ Hshape]. rewrite Htrip in Hshape.
  destruct stop_time_updates as [|stop stus]; simpl in Hshape.
  { by rewrite Hshape. }
  destruct (get_stop_info stop) as [[[[sid delay] arrival]|]|e].
  - destruct Hshape as [-> _]. split.
    + apply lookup_append_delay_eq.
    + intros key Hne. by apply lookup_append_delay_ne.
  - by rewrite Hshape.
  - done.
Qed.

Lemma read_data_route_observation_witness :
  let trip_data := sample_trip "14052410" [sample_stop 1 "58143" 45] in
  ∃ routes stops routes' stops',
    read_data [] = Ok (routes, stops)
    ∧ read_data ([] ++ [trip_data]) = Ok (routes', stops')
    ∧ routes' !! ("6636"%string, 0)
      = Some (default [] (routes !! ("6636"%string, 0)) ++ [45])
    ∧ ∀ key, key ≠ ("6636"%string, 0) → routes' !! key = routes !! key.
Proof.
  eexists _, _, _, _. split; [reflexivity|]. split; [reflexivity|].
  exact (read_data_route_observation []
           (sample_trip "14052410" [sample_stop 1 "58143" 45])
           ("6636"%string, 0) [sample_stop 1 "58143" 45]
           "14052410" "18309" _ _ _ _ eq_refl eq_refl eq_refl).
Defined.

(** C1 as stated fails: a trip whose only stop-time-update lacks [arrival]
    has one stop-time-update and contributes no route observation. *)
Lemma read_data_first_stop_without_arrival :
  let stop := sample_stop_without_arrival 1 "58143" in
  get_trip_info (sample_trip "14052410" [stop])
  = Ok (("6636"%string, 0), [stop], "14052410"%string, "18309"%string)
  ∧ read_data [sample_trip "14052410" [stop]] = Ok (∅, ∅).
Proof. split; reflexivity. Qed.

(** C2 (as amended).  Reading a trip record that parses and whose first
    stop-time-update parses appends, for every stop-time-update of the trip
    that parses, its arrival delay to the bucket of its stop id.  When the
    trip has no stop-time-update or its first one does not parse, the trip
    is skipped and the stop buckets stay as they were. *)
Theorem read_data_stop_observations (data : list trip_record)
    (trip_data : trip_record) (route_key : route_key)
    (stop_time_updates : list stop_time_update) (trip_id vehicle : string)
    (routes routes' : gmap (string * Z) (list Z))
    (stops stops' : gmap string (list Z)) :
  get_trip_info trip_data
  = Ok (route_key, stop_time_updates, trip_id, vehicle) →
  read_data data = Ok (routes, stops) →
  read_data (data ++ [trip_data]) = Ok (routes', stops') →
  match get_next_stop_info stop_time_updates with
  | Ok (Some _) =>
      ∀ stop_id,
        default [] (stops' !! stop_id)
        = default [] (stops !! stop_id)
          ++ arrival_delays stop_id stop_time_updates
  | _ => stops' = stops
  end.
Proof.
  intros Htrip Hd (st & st' & Hst & Hst' & -> & ->)%read_data_snoc.
  rewrite Hd in Hst. injection Hst as -> ->.
  apply read_trip_Ok in Hst' as [_ Hshape]. rewrite Htrip in Hshape.
  destruct (get_next_stop_info stop_time_updates)
    as [[[[sid delay] arrival]|]|e].
  - by destruct Hshape as [_ Hstops].
  - by rewrite Hshape.
  - done.
Qed.

Lemma read_data_stop_observations_witness :
  let stop_time_updates :=
    [sample_stop 1 "58143" 45; sample_stop_without_arrival 2 "58144";
     sample_stop 3 "58145" 60; sample_stop 4 "58143" 75] in
  ∃ routes stops routes' stops',
    read_data [] = Ok (routes, stops)
    ∧ read_data ([] ++ [sample_trip "14052410" stop_time_updates])
      = Ok (routes', stops')
    ∧ ∀ stop_id,
        default [] (stops' !! stop_id)
        = default [] (stops !! stop_id)
          ++ arrival_delays stop_id stop_time_updates.
Proof.
  eexists _, _, _, _. split; [reflexivity|]. split; [reflexivity|].
  exact (read_data_stop_observations []
           (sample_trip "14052410"
              [sample_stop 1 "58143" 45; sample_stop_without_arrival 2 "58144";
               sample_stop 3 "58145" 60; sample_stop 4 "58143" 75])
           ("6636"%string, 0)
           [sample_stop 1 "58143" 45; sample_stop_without_arrival 2 "58144";
            sample_stop 3 "58145" 60; sample_stop 4 "58143" 75]
           "14052410" "18309" _ _ _ _ eq_refl eq_refl eq_refl).
Defined.

(** C2 as stated fails: the second stop-time-update of this trip parses,
    with arrival delay 60 at stop 58145, but the first one lacks [arrival];
    the trip is skipped and the bucket of stop 58145 is not created. *)
Lemma read_data_later_stop_dropped :
  let first := sample_stop_without_arrival 1 "58143" in
  let second := sample_stop 2 "58145" 60 in
  get_trip_info (sample_trip "14052410" [first; second])
  = Ok (("6636"%string, 0), [first; second],
        "14052410"%string, "18309"%string)
  ∧ (∃ arrival_time,
       get_stop_info second = Ok (Some ("58145"%string, 60, arrival_time)))
  ∧ ∃ routes stops,
      read_data [sample_trip "14052410" [first; second]] = Ok (routes, stops)
      ∧ stops !! "58145"%string = None.
Proof.
  split; [reflexivity|]. split; [by eexists|].
  exists ∅, ∅. split; reflexivity.
Qed.

(** C7.  In the two dictionaries that [read_data] returns every key maps
    to a non-empty list; [get_route_stats] and [get_stop_stats] therefore
    call [get_stats] on non-empty lists only, and neither raises the
    [StatisticsError] of an empty list. *)
Theorem read_data_buckets_nonempty (data : list trip_record)
    (routes : gmap (string * Z) (list Z)) (stops : gmap string (list Z)) :
  read_data data = Ok (routes, stops) →
  map_Forall (λ _ delays, delays ≠ []) routes
  ∧ map_Forall (λ _ delays, delays ≠ []) stops
  ∧ get_route_stats routes ≠ Raise StatisticsError
  ∧ get_stop_stats stops ≠ Raise StatisticsError.
Proof.
  intros (st & Hst & -> & ->)%read_data_Ok.
  apply read_trips_Ok in Hst as [Hroutes Hstops].
  2: { split; apply map_Forall_empty. }
  split; [done|]. split; [done|].
  split; apply stats_loop_nonempty.
  - apply map_Forall_to_list in Hroutes.
    eapply Forall_impl; [exact Hroutes|]. by intros [key delays].
  - apply map_Forall_to_list in Hstops.
    eapply Forall_impl; [exact Hstops|]. by intros [key delays].
Qed.

Lemma read_data_buckets_nonempty_witness :
  let data :=
    [sample_trip "14052410"
       [sample_stop 1 "58143" 45; sample_stop 2 "58145" 60];
     sample_trip "14052411" [sample_stop 1 "58143" (-30)]] in
  ∃ routes stops,
    read_data data = Ok (routes, stops)
    ∧ map_Forall (λ _ delays, delays ≠ []) routes
    ∧ map_Forall (λ _ delays, delays ≠ []) stops
    ∧ get_route_stats routes ≠ Raise StatisticsError
    ∧ get_stop_stats stops ≠ Raise StatisticsError.
Proof.
  eexists _, _. split; [reflexivity|].
  exact (read_data_buckets_nonempty
           [sample_trip "14052410"
              [sample_stop 1 "58143" 45; sample_stop 2 "58145" 60];
            sample_trip "14052411" [sample_stop 1 "58143" (-30)]]
           _ _ eq_refl).
Defined.

(** ** The English text *)

Section english.

Lemma get_english_none (translations : list translation) :
  Forall (λ entry, language entry ≠ "en"%string) translations →
  get_english translations = ""%string.
Proof.
  induction 1 as [|entry translations Hne _ IH]; simpl; [done|].
  by destruct (decide (language entry = "en"%string)).
Qed.

Lemma get_english_first (translations : list translation) :
  Exists (λ entry, language entry = "en"%string) translations →
  ∃ entry, entry ∈ translations ∧ language entry = "en"%string
           ∧ get_english translations = text entry.
Proof.
  induction translations as [|entry translations IH]; intros Hex.
  { by apply Exists_nil in Hex. }
  simpl. destruct (decide (language entry = "en"%string)) as [Hen|Hne].
  - exists entry. split; [left|done].
  - apply Exists_cons in Hex as [?|Hex]; [done|].
    destruct (IH Hex) as (entry' & Hin & Hen & Htext).
    exists entry'. split; [by right|done].
Qed.

End english.

(** C6.  For every translation list and every ordering of it,
    [get_english] returns the empty string when no entry has language code
    ["en"], and otherwise the text of an entry with that code: the text of
    the matching entry when there is one such entry, or when all of them
    carry the same text. *)
Theorem get_english_ordering (translations ordering : list translation) :
  ordering ≡ₚ translations →
  (Forall (λ entry, language entry ≠ "en"%string) translations →
   get_english ordering = ""%string)
  ∧ (Exists (λ entry, language entry = "en"%string) translations →
     ∃ entry, entry ∈ translations ∧ language entry = "en"%string
              ∧ get_english ordering = text entry)
  ∧ (∀ entry, entry ∈ translations → language entry = "en"%string →
     (∀ other, other ∈ translations → language other = "en"%string →
               text other = text entry) →
     get_english ordering = text entry).
Proof.
  intros Hperm. split; [|split].
  - intros Hall. apply get_english_none. by rewrite Hperm.
  - intros Hex. rewrite <- Hperm in Hex.
    destruct (get_english_first ordering Hex) as (entry & Hin & Hen & Htext).
    exists entry. by rewrite <- Hperm.
  - intros entry Hin Hen Hsame.
    assert (Exists (λ entry, language entry = "en"%string) ordering) as Hex.
    { apply Exists_exists. exists entry. by rewrite Hperm. }
    destruct (get_english_first ordering Hex) as (first & Hin' & Hen' & ->).
    apply Hsame; [by rewrite <- Hperm|done].
Qed.

Lemma get_english_ordering_witness :
  let fr := mk_translation "fr" "Arret ferme" in
  let en := mk_translation "en" "Stop closed" in
  (Forall (λ entry, language entry ≠ "en"%string) [fr; en] →
   get_english [en; fr] = ""%string)
  ∧ (Exists (λ entry, language entry = "en"%string) [fr; en] →
     ∃ entry, entry ∈ [fr; en] ∧ language entry = "en"%string
              ∧ get_english [en; fr] = text entry)
  ∧ (∀ entry, entry ∈ [fr; en] → language entry = "en"%string →
     (∀ other, other ∈ [fr; en] → language other = "en"%string →
               text other = text entry) →
     get_english [en; fr] = text entry).
Proof.
  apply (get_english_ordering
           [mk_translation "fr" "Arret ferme"; mk_translation "en" "Stop closed"]
           [mk_translation "en" "Stop closed"; mk_translation "fr" "Arret ferme"]).
  apply Permutation_swap.
Defined.

(** ** The time of the last update *)

Section last_update.

Variable today : date.
Variable table : list update_time_row.

(** With a row for each of the two days the function returns today's. *)
Lemma get_last_update_time_both (row_today row_yesterday : update_time_row) :
  select_update_time table today = [row_today] →
  select_update_time table (today - 1) = [row_yesterday] →
  day row_yesterday ≠ today →
  get_last_update_time (session_of table) today
  = Ok (Some (update_time row_today)).
Proof.
  intros Htoday Hyesterday Hne.
  unfold get_last_update_time, session_of. simpl.
  rewrite Htoday, Hyesterday. simpl.
  by rewrite bool_decide_eq_false_2.
Qed.

(** Without a row for today the first [result.one()] is [None] and the
    function raises. *)
Lemma get_last_update_time_no_today :
  select_update_time table today = [] →
  get_last_update_time (session_of table) today = Raise AttributeError.
Proof.
  intros Htoday. unfold get_last_update_time, session_of. simpl.
  by rewrite Htoday.
Qed.

(** Without a row for yesterday the second [result.one()] is [None] and
    the function raises as well. *)
Lemma get_last_update_time_no_yesterday (row_today : update_time_row) :
  select_update_time table today = [row_today] →
  select_update_time table (today - 1) = [] →
  get_last_update_time (session_of table) today = Raise AttributeError.
Proof.
  intros Htoday Hyesterday. unfold get_last_update_time, session_of. simpl.
  by rewrite Htoday, Hyesterday.
Qed.

(** The function returns only when both days have a row, and then it
    returns today's timestamp. *)
Lemma get_last_update_time_returns (r : option Datetime.datetime) :
  get_last_update_time (session_of table) today = Ok r ↔
  ∃ row_today row_yesterday,
    select_update_time table today = [row_today]
    ∧ select_update_time table (today - 1) = [row_yesterday]
    ∧ r = Some (update_time row_today).
Proof.
  assert (∀ d, select_update_time table d = []
               ∨ ∃ row, select_update_time table d = [row] ∧ day row = d)
    as Hselect.
  { intros d. unfold select_update_time.
    destruct (filter (λ row, day row = d) table) as [|row rows] eqn:Hrows;
      [by left|right].
    exists row. split; [by destruct rows|].
    assert (row ∈ filter (λ row, day row = d) table) as Hin
      by (rewrite Hrows; left).
    by apply list_elem_of_filter in Hin as [? _]. }
  split.
  - intros Hr.
    destruct (Hselect today) as [Htoday|(row_today & Htoday & _)].
    { by rewrite get_last_update_time_no_today in Hr. }
    destruct (Hselect (today - 1))
      as [Hyesterday|(row_yesterday & Hyesterday & Hday)].
    { by rewrite (get_last_update_time_no_yesterday row_today) in Hr. }
    rewrite (get_last_update_time_both row_today row_yesterday) in Hr
      by (done || lia).
    injection Hr as <-. eauto.
  - intros (row_today & row_yesterday & Htoday & Hyesterday & ->).
    apply (get_last_update_time_both row_today row_yesterday); [done..|].
    destruct (Hselect (today - 1)) as [Hnil|(row & Hrow & Hday)].
    + by rewrite Hnil in Hyesterday.
    + rewrite Hrow in Hyesterday. injection Hyesterday as <-. lia.
Qed.

End last_update.

(** C3, on the code: on 2024-11-27, with rows for both days the function
    returns today's timestamp; with yesterday's row only, and with no row
    at all, it raises [AttributeError] where the specification has it
    return yesterday's timestamp and [None]. *)
Theorem get_last_update_time_cases :
  let today := Datetime.ymd2ord 2024 11 27 in
  let t_today := Datetime.mk_datetime 2024 11 27 5 0 24 0 (Some Datetime.utc) in
  let t_yesterday :=
    Datetime.mk_datetime 2024 11 26 16 0 55 0 (Some Datetime.utc) in
  let row_today := mk_update_time_row today t_today in
  let row_yesterday := mk_update_time_row (today - 1) t_yesterday in
  get_last_update_time (session_of [row_yesterday; row_today]) today
  = Ok (Some t_today)
  ∧ get_last_update_time (session_of [row_yesterday]) today
    = Raise AttributeError
  ∧ get_last_update_time (session_of []) today = Raise AttributeError
  ∧ get_last_update_time (session_of [row_today]) today
    = Raise AttributeError.
Proof. repeat split; reflexivity. Qed.

(** ** Ingestion of the stop statistics *)

Section ingestion.

Variable stop_results : gmap string (result (list stop_row)).
Variable update_time : Datetime.datetime.

(** A stop whose detail lookup has no row is skipped: the iteration does
    not raise and adds no statement. *)
Lemma ingest_stop_no_row (st : ingest_state) (stop_id : string) (s : stats) :
  stop_results !! stop_id = Some (Ok []) →
  ∃ st', ingest_stop stop_results update_time st (stop_id, s) = Ok st'
         ∧ statements st' = statements st.
Proof.
  intros Hrows. unfold ingest_stop. rewrite Hrows. simpl.
  eexists. split; [reflexivity|]. unfold statements.
  destruct (batch_count st =? 30); simpl; [|done].
  by rewrite concat_app, app_nil_r; simpl; rewrite app_nil_r.
Qed.

Lemma ingest_stop_ok (st : ingest_state) (item : string * stats)
    (rows : list stop_row) :
  stop_results !! item.1 = Some (Ok rows) →
  ingest_inv st →
  ∃ st', ingest_stop stop_results update_time st item = Ok st'
         ∧ ingest_inv st'
         ∧ statements st'
           = statements st
             ++ option_list (stop_statement stop_results update_time item).
Proof.
  destruct item as [stop_id s]. simpl. intros Hrows (Hcount & Hlen & Hexec).
  unfold ingest_stop, stop_statement, statements. simpl. rewrite Hrows. simpl.
  destruct (Z.eqb_spec (batch_count st) 30) as [H30|H30];
    destruct rows as [|stop_details rows]; simpl;
    (eexists; split; [reflexivity|]); unfold ingest_inv; simpl.
  - split.
    + split; [done|]. split; [lia|].
      apply Forall_app. split; [done|]. by apply Forall_singleton.
    + by rewrite concat_app, !app_nil_r; simpl; rewrite app_nil_r.
  - split.
    + split; [done|]. split; [lia|].
      apply Forall_app. split; [done|]. by apply Forall_singleton.
    + rewrite concat_app. simpl. by rewrite app_nil_r.
  - split; [done|]. by rewrite app_nil_r.
  - split.
    + rewrite length_app. simpl. split; [lia|]. split; [lia|done].
    + by rewrite app_assoc.
Qed.

Lemma ingest_loop_ok (stop_stats : list (string * stats))
    (st : ingest_state) :
  (∀ stop_id s, (stop_id, s) ∈ stop_stats →
     ∃ rows, stop_results !! stop_id = Some (Ok rows)) →
  ingest_inv st →
  ∃ st', for_each (ingest_stop stop_results update_time) stop_stats st
         = Ok st'
         ∧ ingest_inv st'
         ∧ statements st'
           = statements st
             ++ omap (stop_statement stop_results update_time) stop_stats.
Proof.
  revert st. induction stop_stats as [|item stop_stats IH];
    intros st Hlookup Hinv.
  { exists st. split; [done|]. split; [done|]. by rewrite app_nil_r. }
  destruct (Hlookup item.1 item.2) as [rows Hrows].
  { destruct item. left. }
  destruct (ingest_stop_ok st item rows Hrows Hinv) as (st1 & Hst1 & Hinv1 & Hs1).
  destruct (IH st1) as (st' & Hst' & Hinv' & Hs'); [|done|].
  { intros stop_id s Hin. apply (Hlookup stop_id s). by right. }
  exists st'. simpl. rewrite Hst1. simpl. split; [done|]. split; [done|].
  rewrite Hs', Hs1, <- app_assoc. f_equal.
  by destruct (stop_statement stop_results update_time item).
Qed.

End ingestion.

(** C8.  When every detail lookup has completed, [ingest_stop_stats_by_time]
    does not raise, and the statements of the batches it sends are, in
    order, those of the stops whose lookup returned a row: a stop whose
    lookup returned no row has no statement in any batch, and the stops
    after it are processed.  No batch holds more than 30 statements. *)
Theorem ingest_stop_stats_by_time_skips (stop_stats : list (string * stats))
    (stop_results : gmap string (result (list stop_row)))
    (update_time : Datetime.datetime) :
  (∀ stop_id s, (stop_id, s) ∈ stop_stats →
     ∃ rows, stop_results !! stop_id = Some (Ok rows)) →
  ∃ batches,
    ingest_stop_stats_by_time stop_stats stop_results update_time = Ok batches
    ∧ concat batches = omap (stop_statement stop_results update_time) stop_stats
    ∧ Forall (λ b, (length b ≤ 30)%nat) batches
    ∧ ∀ stop_id, stop_results !! stop_id = Some (Ok []) →
        ∀ b values, b ∈ batches → values ∈ b → ins_stop_id values ≠ stop_id.
Proof.
  intros Hlookup.
  destruct (ingest_loop_ok stop_results update_time stop_stats
              {| batch := []; batch_count := 0; executed := [] |} Hlookup)
    as (st & Hst & (Hcount & Hlen & Hexec) & Hstatements).
  { split; [done|]. split; [simpl; lia|done]. }
  exists (executed st ++ [batch st]).
  assert (concat (executed st ++ [batch st])
          = omap (stop_statement stop_results update_time) stop_stats)
    as Hconcat.
  { rewrite concat_app. simpl. rewrite app_nil_r. exact Hstatements. }
  unfold ingest_stop_stats_by_time. rewrite Hst.
  split; [done|]. split; [done|]. split.
  { apply Forall_app. split; [done|]. by apply Forall_singleton. }
  intros stop_id Hempty b values Hb Hvalues Hid.
  assert (values ∈ concat (executed st ++ [batch st])) as Hin.
  { apply list_elem_of_In, in_concat. exists b.
    split; by apply list_elem_of_In. }
  rewrite Hconcat in Hin. apply list_elem_of_omap in Hin as (item & _ & Hitem).
  unfold stop_statement in Hitem.
  destruct (stop_results !! item.1) as [[[|stop_details rows]|e]|] eqn:Hrows;
    try done.
  injection Hitem as <-. simpl in Hid. congruence.
Qed.

Lemma ingest_stop_stats_by_time_skips_witness :
  let stop_stats :=
    [("58143"%string, sample_stats 45); ("58144"%string, sample_stats 60);
     ("58145"%string, sample_stats 75)] in
  let stop_results : gmap string (result (list stop_row)) :=
    <["58143"%string := Ok [sample_stop_row "58143" "Main St"]]>
      (<["58144"%string := Ok []]>
         (<["58145"%string := Ok [sample_stop_row "58145" "Oak St"]]> ∅)) in
  let update_time :=
    Datetime.mk_datetime 2024 11 26 16 0 55 0 (Some Datetime.utc) in
  ∃ batches,
    ingest_stop_stats_by_time stop_stats stop_results update_time = Ok batches
    ∧ concat batches = omap (stop_statement stop_results update_time) stop_stats
    ∧ Forall (λ b, (length b ≤ 30)%nat) batches
    ∧ ∀ stop_id, stop_results !! stop_id = Some (Ok []) →
        ∀ b values, b ∈ batches → values ∈ b → ins_stop_id values ≠ stop_id.
Proof.
  apply ingest_stop_stats_by_time_skips.
  intros stop_id s Hin. apply list_elem_of_In in Hin. simpl in Hin.
  destruct Hin as [[= <- <-]|[[= <- <-]|[[= <- <-]|[]]]];
    eexists; reflexivity.
Defined.

(** ** Vehicle positions *)

Section positions.

Lemma epoch_of_seconds (t : epoch) : epoch_of (seconds t) = Some t.
Proof.
  destruct t as [secs Hrange]. unfold epoch_of. simpl.
  destruct (decide (Datetime.in_range secs = true)) as [H|H]; [|done].
  do 2 f_equal. apply proof_irrel.
Qed.

Variable upload_time : Datetime.datetime.

Lemma read_position_ok (results : list position_params)
    (update : position_record) :
  ∃ params, read_position upload_time results update = Ok (results ++ [params])
            ∧ position_round_trip upload_time update params.
Proof.
  destruct update as [[vehicle trip status sequence stop_id pos t]].
  destruct (fromtimestamp_epoch t) as [dt Hdt].
  pose proof (DatetimeFacts.timestamp_fromtimestamp _ _ Hdt) as [Hts Htz].
  unfold read_position. simpl. rewrite Hdt. simpl.
  eexists. split; [reflexivity|].
  split; [by repeat split|]. simpl.
  split; [done|]. split; [done|]. split; [done|].
  unfold serialize_position. cbn [pp_last_update]. rewrite Hts.
  cbn [decide_rel]. destruct (decide (0 = 0)) as [_|?]; [|done].
  rewrite epoch_of_seconds. simpl.
  by destruct vehicle, trip, pos.
Qed.

Lemma read_positions_ok (data : list position_record)
    (results : list position_params) :
  ∃ more, for_each (read_position upload_time) data results
          = Ok (results ++ more)
          ∧ Forall2 (position_round_trip upload_time) data more.
Proof.
  revert results. induction data as [|update data IH]; intros results.
  { exists []. by rewrite app_nil_r. }
  destruct (read_position_ok results update) as (params & Hparams & Hround).
  destruct (IH (results ++ [params])) as (more & Hmore & Hall).
  exists (params :: more). simpl. rewrite Hparams. simpl.
  rewrite Hmore, <- app_assoc. split; [done|]. by constructor.
Qed.

End positions.

(** C9.  For every position snapshot [read_position_update] returns one
    tuple per record, in order; the tuple carries the nine copied fields of
    its record unchanged, its datetime is the UTC instant of the record's
    epoch second, exactly, and serializing the tuple back in the original
    field order gives the record again. *)
Theorem read_position_update_round_trip (data : list position_record)
    (upload_time : Datetime.datetime) :
  ∃ results,
    read_position_update data upload_time = Ok results
    ∧ Forall2
        (λ update params,
           position_fields_preserved update params
           ∧ Datetime.timestamp (pp_last_update params)
             = (seconds (vp_timestamp (pr_vehicle update)), 0)
           ∧ Datetime.tzinfo (pp_last_update params) = Some Datetime.utc
           ∧ pp_update_time params = upload_time
           ∧ serialize_position params = Some update)
        data results.
Proof.
  destruct (read_positions_ok upload_time data []) as (results & Hres & Hall).
  exists results. split; [exact Hres|exact Hall].
Qed.

(** ** More on the statistics *)

Section more_stats.

Lemma sum_Permutation (data data' : list Z) :
  data ≡ₚ data' → Statistics.sum data = Statistics.sum data'.
Proof.
  unfold Statistics.sum.
  induction 1 as [|d l l' _ IH|d d' l|l l' l'' _ IH _ IH']; simpl;
    [done|by rewrite IH|lia|congruence].
Qed.

Lemma sorted_Permutation (data data' : list Z) :
  data ≡ₚ data' → Statistics.sorted data = Statistics.sorted data'.
Proof.
  intros Hperm. unfold Statistics.sorted.
  apply (Sorted_unique Z.le).
  - apply Sorted_merge_sort, _.
  - apply Sorted_merge_sort, _.
  - by rewrite !merge_sort_Permutation.
Qed.

Lemma mean_Permutation (data data' : list Z) :
  data ≡ₚ data' → Statistics.mean data = Statistics.mean data'.
Proof.
  intros Hperm. unfold Statistics.mean.
  rewrite (sum_Permutation _ _ Hperm), (Permutation_length Hperm).
  destruct data as [|d data], data' as [|d' data']; try done.
  - by apply Permutation_nil_cons in Hperm.
  - symmetry in Hperm. by apply Permutation_nil_cons in Hperm.
Qed.

Lemma pos_of_nat_length {A} (data : list A) :
  data ≠ [] → Z.pos (Pos.of_nat (length data)) = Z.of_nat (length data).
Proof.
  destruct data as [|d data]; [done|]. intros _. cbn [length].
  rewrite <- Pos.of_nat_succ, Zpos_P_of_succ_nat. lia.
Qed.

Lemma round_inject_Z (z : Z) : Statistics.round (inject_Z z) = z.
Proof.
  unfold Statistics.round. simpl.
  rewrite Z.div_1_r, Z.mod_1_r. reflexivity.
Qed.

Lemma sorted_StronglySorted (data : list Z) :
  StronglySorted Z.le (Statistics.sorted data).
Proof. apply StronglySorted_merge_sort; apply _. Qed.

Lemma StronglySorted_nth_le (s : list Z) (i j : nat) :
  StronglySorted Z.le s → (i ≤ j < length s)%nat →
  nth i s 0 ≤ nth j s 0.
Proof.
  intros Hs. revert i j. induction Hs as [|x s Hs IH Hx]; intros i j Hij.
  { simpl in Hij. lia. }
  destruct i as [|i], j as [|j]; simpl in *; [lia| |lia|apply IH; lia].
  rewrite Forall_forall in Hx. apply Hx, list_elem_of_In, nth_In. lia.
Qed.

(** In a sorted list at least [i + 1] elements are at most the [i]-th
    one, and at least [length s - i] are at least the [i]-th one. *)
Lemma sorted_count_le (s : list Z) (i : nat) (m : Z) :
  StronglySorted Z.le s → (i < length s)%nat → nth i s 0 ≤ m →
  (i + 1 ≤ length (filter (λ d : Z, (d ≤ m)%Z) s))%nat.
Proof.
  intros Hs. revert i. induction Hs as [|x s Hs IH Hx]; intros i Hi Hm.
  { simpl in Hi. lia. }
  rewrite Forall_forall in Hx.
  destruct i as [|i]; cbn [nth length] in *.
  - rewrite filter_cons_True by done. cbn [length]. lia.
  - assert (x ≤ nth i s 0) by (apply Hx, list_elem_of_In, nth_In; lia).
    rewrite filter_cons_True by lia. cbn [length].
    specialize (IH i). lia.
Qed.

Lemma sorted_count_ge (s : list Z) (i : nat) (m : Z) :
  StronglySorted Z.le s → (i < length s)%nat → m ≤ nth i s 0 →
  (length s - i ≤ length (filter (λ d : Z, (m ≤ d)%Z) s))%nat.
Proof.
  intros Hs. revert i. induction Hs as [|x s Hs IH Hx]; intros i Hi Hm.
  { simpl in Hi. lia. }
  rewrite Forall_forall in Hx.
  destruct i as [|i]; cbn [nth length] in *.
  - rewrite filter_cons_True by done. cbn [length].
    destruct s as [|y s]; [simpl; lia|].
    assert (x ≤ y) by (apply Hx; left).
    specialize (IH 0%nat). cbn [nth length] in *. lia.
  - specialize (IH i).
    destruct (decide (m ≤ x)).
    + rewrite filter_cons_True by done. cbn [length]. lia.
    + rewrite filter_cons_False by done. lia.
Qed.

Lemma indicator_sum_filter (p : Z → bool) (data : list Z) :
  Statistics.sum ((λ d, if p d then 1 else 0) <$> data)
  = Z.of_nat (length (filter (λ d, p d = true) data)).
Proof.
  induction data as [|d data IH]; [done|].
  rewrite fmap_cons. cbn [Statistics.sum foldr].
  fold (Statistics.sum ((λ d, if p d then 1 else 0) <$> data)).
  rewrite IH. destruct (p d) eqn:Hp.
  - rewrite filter_cons_True by done. simpl length. lia.
  - rewrite filter_cons_False by congruence. lia.
Qed.

Lemma get_stats_fields (delays : list Z) (s : stats) :
  get_stats delays = Ok s →
  ∃ m md,
    Statistics.mean delays = Ok m ∧ Statistics.median delays = Ok md
    ∧ s = {| mean := Statistics.round m;
             median := Statistics.round md;
             count := Z.of_nat (length delays);
             very_early :=
               Statistics.sum
                 ((λ delay, if delay <=? - HIGH_DELAY then 1 else 0)
                    <$> delays);
             very_late :=
               Statistics.sum
                 ((λ delay, if delay >=? HIGH_DELAY then 1 else 0)
                    <$> delays) |}.
Proof.
  unfold get_stats.
  destruct (Statistics.mean delays) as [m|e]; [|done].
  destruct (Statistics.median delays) as [md|e]; [|done].
  intros [= <-]. by exists m, md.
Qed.

End more_stats.

Lemma get_stats_perm (delays delays' : list Z) :
  delays ≡ₚ delays' → get_stats delays = get_stats delays'.
Proof.
  intros Hperm. unfold get_stats, Statistics.median.
  rewrite (mean_Permutation _ _ Hperm), (sorted_Permutation _ _ Hperm).
  rewrite (Permutation_length Hperm).
  rewrite (sum_Permutation (_ <$> delays) (_ <$> delays'))
    by by apply fmap_Permutation.
  by rewrite (sum_Permutation (_ <$> delays) (_ <$> delays'))
    by by apply fmap_Permutation.
Qed.

(** X1.  [get_stats] does not depend on the order of the delays. *)
Theorem get_stats_Permutation (delays delays' : list Z) :
  delays ≡ₚ delays' → get_stats delays = get_stats delays'.
Proof. apply get_stats_perm. Qed.

Lemma get_stats_Permutation_witness :
  get_stats [-310; -5; 0; 301; 50] = get_stats [50; 301; 0; -5; -310].
Proof.
  apply get_stats_Permutation.
  change [50; 301; 0; -5; -310] with (reverse [-310; -5; 0; 301; 50]).
  symmetry. apply reverse_Permutation.
Defined.

(** X2.  [get_stats] raises [StatisticsError] exactly on the empty list.
    On a non-empty list its only exception is [OverflowError], of a mean
    or a median too large for a float, and it returns when the delays are
    of magnitude at most [2^53]. *)
Theorem get_stats_raises (delays : list Z) :
  (get_stats delays = Raise StatisticsError ↔ delays = [])
  ∧ (∀ e, get_stats delays = Raise e →
       e = StatisticsError ∨ e = OverflowError)
  ∧ (delays ≠ [] → Forall (λ d, - 2 ^ 53 ≤ d ≤ 2 ^ 53) delays →
       ∃ s, get_stats delays = Ok s).
Proof.
  split; [split|split].
  - intros Hs. apply get_stats_Raise in Hs as [[_ ?]|[? _]]; done.
  - by intros ->.
  - intros e He. apply get_stats_Raise in He as [[-> _]|[-> _]]; auto.
  - intros Hne Hall.
    destruct (minimum_maximum_between _ _ delays Hne Hall) as [Hmin Hmax].
    destruct (get_stats_between _ _ delays Hmin Hmax Hne
                (minimum_maximum delays)) as (s & Hs & _).
    by exists s.
Qed.

Lemma get_stats_raises_witness :
  get_stats [] = Raise StatisticsError
  ∧ ∃ s, get_stats [45; 60] = Ok s.
Proof.
  destruct (get_stats_raises []) as ([_ Hempty] & _ & _).
  destruct (get_stats_raises [45; 60]) as (_ & _ & Hreturns).
  split; [by apply Hempty|]. apply Hreturns; [done|].
  repeat first [apply Forall_nil_2 | apply Forall_cons_2; [lia|]].
Defined.

(** A mean too large for a float. *)
Example get_stats_overflow :
  get_stats [10 ^ 400; 1] = Raise OverflowError.
Proof. vm_compute. reflexivity. Qed.

(** X3.  On delays of magnitude at most [2^53] the rounded mean is the
    exact mean rounded down or up: it is less than one away from
    [sum(delays) / count], and [count] is the number of delays. *)
Theorem get_stats_mean_accuracy (delays : list Z) (s : stats) :
  Forall (λ d, - 2 ^ 53 ≤ d ≤ 2 ^ 53) delays →
  get_stats delays = Ok s →
  count s = Z.of_nat (length delays)
  ∧ Z.abs (count s * mean s - Statistics.sum delays) < count s.
Proof.
  intros Hall Hs.
  assert (delays ≠ []) as Hne by (by intros ->).
  pose proof (sum_between _ _ delays Hall) as Hsum.
  apply get_stats_fields in Hs as (m & md & Hm & _ & ->).
  cbn [mean count]. split; [done|].
  rewrite <- (pos_of_nat_length delays Hne) in *.
  unfold Statistics.mean in Hm. destruct delays as [|d delays]; [done|].
  set (total := Statistics.sum (d :: delays)) in *.
  set (n := Pos.of_nat (length (d :: delays))) in *. clearbody total n.
  cbv zeta in Hm.
  pose proof (Z.div_mod total (Z.pos n) ltac:(done)) as Hdiv.
  pose proof (Z.mod_pos_bound total (Z.pos n) ltac:(done)) as Hmod.
  destruct (Z.eqb_spec (total mod Z.pos n) 0) as [H0|H0].
  - injection Hm as <-. rewrite round_inject_Z. nia.
  - destruct (true_divide_between total n (total / Z.pos n)
                (total / Z.pos n + 1)) as (x & Hx & Hx1 & Hx2); [nia..|].
    rewrite Hx in Hm. injection Hm as ->.
    pose proof (round_between m _ _ Hx1 Hx2). nia.
Qed.

Lemma get_stats_mean_accuracy_witness :
  let s := {| mean := 2; median := 2; count := 2;
              very_early := 0; very_late := 0 |} in
  count s = Z.of_nat (length [1; 2])
  ∧ Z.abs (count s * mean s - Statistics.sum [1; 2]) < count s.
Proof.
  apply (get_stats_mean_accuracy [1; 2]).
  - repeat first [apply Forall_nil_2 | apply Forall_cons_2; [lia|]].
  - vm_compute. reflexivity.
Defined.

(** X4.  The rounded median splits the delays, when they are of magnitude
    at most [2^53]: at least half of them are at most the median and at
    least half are at least the median. *)
Theorem get_stats_median_splits (delays : list Z) (s : stats) :
  Forall (λ d, - 2 ^ 53 ≤ d ≤ 2 ^ 53) delays →
  get_stats delays = Ok s →
  (length delays
   ≤ 2 * length (filter (λ d : Z, (d ≤ median s)%Z) delays))%nat
  ∧ (length delays
     ≤ 2 * length (filter (λ d : Z, (median s ≤ d)%Z) delays))%nat.
Proof.
  intros Hall Hs. apply get_stats_fields in Hs as (m & md & _ & Hmd & ->).
  cbn [median]. unfold Statistics.median in Hmd.
  pose proof (sorted_StronglySorted delays) as Hsorted.
  pose proof (sorted_length delays) as Hlen.
  apply sorted_between in Hall.
  assert (delays ≡ₚ Statistics.sorted delays) as Hperm
    by (symmetry; apply merge_sort_Permutation).
  assert (∀ x, length (filter (λ d : Z, d ≤ x) delays)
               = length (filter (λ d : Z, d ≤ x) (Statistics.sorted delays)))
    as Hle by (intros x; by apply Permutation_length, filter_Permutation).
  assert (∀ x, length (filter (λ d : Z, x ≤ d) delays)
               = length (filter (λ d : Z, x ≤ d) (Statistics.sorted delays)))
    as Hge by (intros x; by apply Permutation_length, filter_Permutation).
  rewrite Hle, Hge, <- Hlen. clear Hperm Hle Hge.
  set (l := Statistics.sorted delays) in *. clearbody l.
  destruct (decide (length l = 0%nat)) as [?|Hne]; [done|].
  assert (length l `div` 2 < length l)%nat as Hi by (apply Nat.div_lt; lia).
  pose proof (Nat.div_mod (length l) 2 ltac:(done)) as Hdiv.
  pose proof (Nat.mod_upper_bound (length l) 2 ltac:(done)) as Hmod.
  destruct (decide (length l `mod` 2 = 1)%nat) as [Hodd|Heven].
  - assert (md = inject_Z (nth (length l `div` 2) l 0)) as ->
      by (unfold mret, result_ret in Hmd; congruence).
    rewrite round_inject_Z.
    pose proof (sorted_count_le l _ _ Hsorted Hi (Z.le_refl _)).
    pose proof (sorted_count_ge l _ _ Hsorted Hi (Z.le_refl _)).
    lia.
  - set (i := (length l `div` 2)%nat) in *.
    assert (i - 1 < length l)%nat as Hj by lia.
    assert (nth (i - 1) l 0 ≤ nth i l 0) as Hab
      by (apply StronglySorted_nth_le; [done|lia]).
    pose proof (nth_between _ _ _ _ Hall Hi) as Hbi.
    pose proof (nth_between _ _ _ _ Hall Hj) as Hbj.
    destruct (true_divide_between (nth (i - 1) l 0 + nth i l 0) 2
                (nth (i - 1) l 0) (nth i l 0))
      as (x & Hx & Hx1 & Hx2); [lia..|].
    rewrite Hx in Hmd. injection Hmd as ->.
    destruct (round_between md _ _ Hx1 Hx2) as [Hlo Hhi].
    pose proof (sorted_count_le l _ _ Hsorted Hj Hlo).
    pose proof (sorted_count_ge l _ _ Hsorted Hi Hhi).
    lia.
Qed.

Lemma get_stats_median_splits_witness :
  let delays := [-310; -5; 0; 301; 50; 12] in
  let s := {| mean := 8; median := 6; count := 6;
              very_early := 1; very_late := 1 |} in
  (length delays
   ≤ 2 * length (filter (λ d : Z, (d ≤ median s)%Z) delays))%nat
  ∧ (length delays
     ≤ 2 * length (filter (λ d : Z, (median s ≤ d)%Z) delays))%nat.
Proof.
  apply (get_stats_median_splits [-310; -5; 0; 301; 50; 12]).
  - repeat first [apply Forall_nil_2 | apply Forall_cons_2; [lia|]].
  - vm_compute. reflexivity.
Defined.

(** X5.  [very_early] is the number of delays at most [-HIGH_DELAY] and
    [very_late] the number of delays at least [HIGH_DELAY], both bounds
    included; a delay strictly between the two is counted in neither. *)
Theorem get_stats_counts (delays : list Z) (s : stats) :
  get_stats delays = Ok s →
  very_early s
  = Z.of_nat (length (filter (λ d, d ≤ - HIGH_DELAY) delays))
  ∧ very_late s
    = Z.of_nat (length (filter (λ d, HIGH_DELAY ≤ d) delays))
  ∧ count s - very_early s - very_late s
    = Z.of_nat
        (length (filter (λ d, - HIGH_DELAY < d < HIGH_DELAY) delays)).
Proof.
  intros Hs. apply get_stats_fields in Hs as (m & md & _ & _ & ->).
  cbn [very_early very_late count].
  rewrite !indicator_sum_filter.
  assert (∀ P Q : Z → Prop, ∀ (HP : ∀ d, Decision (P d))
            (HQ : ∀ d, Decision (Q d)),
            (∀ d, P d ↔ Q d) →
            length (filter P delays) = length (filter Q delays)) as Hext.
  { intros P Q HP HQ HPQ. f_equal. by apply list_filter_iff. }
  rewrite (Hext (λ d, (d <=? - HIGH_DELAY) = true) (λ d, d ≤ - HIGH_DELAY) _ _)
    by (intros d; apply Z.leb_le).
  rewrite (Hext (λ d, (d >=? HIGH_DELAY) = true) (λ d, HIGH_DELAY ≤ d) _ _)
    by (intros d; rewrite Z.geb_leb; apply Z.leb_le).
  split; [done|]. split; [done|].
  unfold HIGH_DELAY. clear. induction delays as [|d delays IH]; [done|].
  rewrite !filter_cons. repeat case_decide; simpl length; lia.
Qed.

Lemma get_stats_counts_witness :
  let s := {| mean := 7; median := 0; count := 5;
              very_early := 1; very_late := 1 |} in
  very_early s
  = Z.of_nat (length (filter (λ d, d ≤ - HIGH_DELAY) [-310; -5; 0; 301; 50]))
  ∧ very_late s
    = Z.of_nat (length (filter (λ d, HIGH_DELAY ≤ d) [-310; -5; 0; 301; 50]))
  ∧ count s - very_early s - very_late s
    = Z.of_nat
        (length (filter (λ d, - HIGH_DELAY < d < HIGH_DELAY)
                   [-310; -5; 0; 301; 50])).
Proof. exact (get_stats_counts [-310; -5; 0; 301; 50] _ eq_refl). Defined.

(** X6.  On equal delays of magnitude at most [2^53] -- in particular on
    a single observation -- the mean and the median are that delay. *)
Theorem get_stats_constant (d : Z) (delays : list Z) :
  - 2 ^ 53 ≤ d ≤ 2 ^ 53 →
  delays ≠ [] → Forall (λ d', d' = d) delays →
  ∃ s, get_stats delays = Ok s
       ∧ mean s = d ∧ median s = d ∧ count s = Z.of_nat (length delays).
Proof.
  intros [Hlo Hhi] Hne Hall.
  destruct (get_stats_between d d delays Hlo Hhi Hne)
    as (s & Hs & Hmean & Hmedian & _).
  { eapply Forall_impl; [exact Hall|]. simpl. lia. }
  exists s. split; [done|]. split; [lia|]. split; [lia|].
  by apply get_stats_fields in Hs as (m & md & _ & _ & ->).
Qed.

Lemma get_stats_constant_witness :
  ∃ s, get_stats [45; 45] = Ok s
       ∧ mean s = 45 ∧ median s = 45
       ∧ count s = Z.of_nat (length [45; 45]).
Proof.
  apply get_stats_constant; [lia|done|].
  repeat first [apply Forall_nil_2 | apply Forall_cons_2; [done|]].
Defined.

(** ** The statistics of every bucket *)

Section stats_loop.

Context `{Countable K}.

(** The loop of [get_route_stats] and [get_stop_stats] over the items of a
    dictionary whose buckets all have statistics. *)
Lemma stats_loop_lookup (items : list (K * list Z)) (acc : gmap K stats) :
  NoDup items.*1 → Forall (λ item, is_Some (stats_of item.2)) items →
  ∃ out,
    for_each
      (λ out '(key, delays),
         stats ← get_stats delays; mret (<[key := stats]> out))
      items acc = Ok out
    ∧ ∀ key,
        out !! key
        = match (list_to_map items : gmap K (list Z)) !! key with
          | Some delays => stats_of delays
          | None => acc !! key
          end.
Proof.
  intros Hnodup Hall. revert acc.
  induction Hall as [|[key0 delays0] items Hsome _ IH]; intros acc.
  { exists acc. split; [done|]. intros key. simpl. by rewrite lookup_empty. }
  rewrite fmap_cons in Hnodup. apply NoDup_cons in Hnodup as [Hnotin Hnodup].
  simpl in *. unfold stats_of in Hsome.
  destruct (get_stats delays0) as [s0|e] eqn:Hs0; [|by destruct Hsome].
  simpl.
  destruct (IH Hnodup (<[key0 := s0]> acc)) as (out & Hout & Hlookup).
  exists out. split; [done|]. intros key. rewrite Hlookup.
  destruct (decide (key0 = key)) as [<-|Hne'].
  - rewrite (not_elem_of_list_to_map_1 _ _ Hnotin), !lookup_insert_eq.
    unfold stats_of. by rewrite Hs0.
  - by rewrite !lookup_insert_ne.
Qed.

(** When the loop returns, every bucket has statistics. *)
Lemma stats_loop_Ok (items : list (K * list Z)) (acc out : gmap K stats) :
  for_each
    (λ out '(key, delays),
       stats ← get_stats delays; mret (<[key := stats]> out))
    items acc = Ok out →
  Forall (λ item, is_Some (stats_of item.2)) items.
Proof.
  revert acc. induction items as [|[key0 delays0] items IH]; intros acc.
  { intros _. apply Forall_nil_2. }
  simpl. destruct (get_stats delays0) as [s0|e] eqn:Hs0; [|done]. simpl.
  intros Hout. apply Forall_cons_2; [|by eapply IH].
  unfold stats_of. simpl. by rewrite Hs0.
Qed.

(** An empty bucket stops the loop with [StatisticsError], unless a
    bucket overflows before it. *)
Lemma stats_loop_empty (items : list (K * list Z)) (acc : gmap K stats)
    (key : K) :
  (key, []) ∈ items →
  Forall (λ item, get_stats item.2 ≠ Raise OverflowError) items →
  for_each
    (λ out '(key, delays),
       stats ← get_stats delays; mret (<[key := stats]> out))
    items acc = Raise StatisticsError.
Proof.
  intros Hin Hall. revert acc.
  induction Hall as [|[key0 delays0] items Hover _ IH]; intros acc.
  { by apply not_elem_of_nil in Hin. }
  simpl in *. destruct (get_stats delays0) as [s0|e] eqn:Hs0; simpl.
  - apply elem_of_cons in Hin as [[= <- <-]|Hin]; [discriminate Hs0|].
    by apply IH.
  - apply get_stats_Raise in Hs0 as [[-> _]|[-> _]]; done.
Qed.

End stats_loop.

Section bounded_buckets.

(** A non-empty bucket of delays of magnitude at most [2^53] has
    statistics. *)
Lemma stats_of_bounded (delays : list Z) :
  delays ≠ [] → Forall (λ d, - 2 ^ 53 ≤ d ≤ 2 ^ 53) delays →
  is_Some (stats_of delays).
Proof.
  intros Hne Hall.
  destruct (minimum_maximum_between _ _ delays Hne Hall) as [Hmin Hmax].
  destruct (get_stats_between _ _ delays Hmin Hmax Hne
              (minimum_maximum delays)) as (s & Hs & _).
  unfold stats_of. rewrite Hs. by eexists.
Qed.

(** A bucket of delays of magnitude at most [2^53] does not overflow. *)
Lemma get_stats_bounded (delays : list Z) :
  Forall (λ d, - 2 ^ 53 ≤ d ≤ 2 ^ 53) delays →
  get_stats delays ≠ Raise OverflowError.
Proof.
  intros Hall. destruct delays as [|d delays]; [done|].
  destruct (stats_of_bounded (d :: delays)) as [s Hs]; [done..|].
  unfold stats_of in Hs. by destruct (get_stats (d :: delays)).
Qed.

End bounded_buckets.

(** X7.  On a dictionary whose buckets are non-empty lists of delays of
    magnitude at most [2^53], [get_route_stats] returns a dictionary with
    the same keys, each mapped to the statistics of its bucket. *)
Theorem get_route_stats_lookup (route_data : gmap route_key (list Z)) :
  map_Forall
    (λ _ delays,
       delays ≠ [] ∧ Forall (λ d, - 2 ^ 53 ≤ d ≤ 2 ^ 53) delays)
    route_data →
  ∃ route_stats,
    get_route_stats route_data = Ok route_stats
    ∧ ∀ key, route_stats !! key = route_data !! key ≫= stats_of.
Proof.
  intros Hne. unfold get_route_stats.
  destruct (stats_loop_lookup (map_to_list route_data) ∅)
    as (out & Hout & Hlookup).
  - apply NoDup_fst_map_to_list.
  - apply map_Forall_to_list in Hne.
    eapply Forall_impl; [exact Hne|].
    intros [key delays] [? ?]. by apply stats_of_bounded.
  - exists out. split; [exact Hout|]. intros key.
    rewrite Hlookup, list_to_map_to_list, lookup_empty.
    by destruct (route_data !! key).
Qed.

Lemma get_route_stats_lookup_witness :
  let route_data : gmap route_key (list Z) :=
    <[("6636"%string, 0) := [45; 60]]> (<[("6636"%string, 1) := [-30]]> ∅) in
  ∃ route_stats,
    get_route_stats route_data = Ok route_stats
    ∧ ∀ key, route_stats !! key = route_data !! key ≫= stats_of.
Proof.
  apply get_route_stats_lookup.
  apply map_Forall_insert_2.
  { split; [done|].
    repeat first [apply Forall_nil_2 | apply Forall_cons_2; [lia|]]. }
  apply map_Forall_insert_2; [|apply map_Forall_empty].
  split; [done|].
  repeat first [apply Forall_nil_2 | apply Forall_cons_2; [lia|]].
Defined.

(** X8.  The same for the first of the two definitions of
    [get_stop_stats], the one that takes the dictionary of delays. *)
Theorem get_stop_stats_lookup (stop_data : gmap string (list Z)) :
  map_Forall
    (λ _ delays,
       delays ≠ [] ∧ Forall (λ d, - 2 ^ 53 ≤ d ≤ 2 ^ 53) delays)
    stop_data →
  ∃ stop_stats,
    get_stop_stats stop_data = Ok stop_stats
    ∧ ∀ stop_id, stop_stats !! stop_id = stop_data !! stop_id ≫= stats_of.
Proof.
  intros Hne. unfold get_stop_stats.
  destruct (stats_loop_lookup (map_to_list stop_data) ∅)
    as (out & Hout & Hlookup).
  - apply NoDup_fst_map_to_list.
  - apply map_Forall_to_list in Hne.
    eapply Forall_impl; [exact Hne|].
    intros [key delays] [? ?]. by apply stats_of_bounded.
  - exists out. split; [exact Hout|]. intros key.
    rewrite Hlookup, list_to_map_to_list, lookup_empty.
    by destruct (stop_data !! key).
Qed.

Lemma get_stop_stats_lookup_witness :
  let stop_data : gmap string (list Z) :=
    <["58143"%string := [45; 60]]> (<["58145"%string := [-30]]> ∅) in
  ∃ stop_stats,
    get_stop_stats stop_data = Ok stop_stats
    ∧ ∀ stop_id, stop_stats !! stop_id = stop_data !! stop_id ≫= stats_of.
Proof.
  apply get_stop_stats_lookup.
  apply map_Forall_insert_2.
  { split; [done|].
    repeat first [apply Forall_nil_2 | apply Forall_cons_2; [lia|]]. }
  apply map_Forall_insert_2; [|apply map_Forall_empty].
  split; [done|].
  repeat first [apply Forall_nil_2 | apply Forall_cons_2; [lia|]].
Defined.

(** X9.  One empty bucket makes [get_route_stats] and [get_stop_stats]
    raise [StatisticsError] and return no partial result, when the delays
    of the other buckets are of magnitude at most [2^53]. *)
Theorem get_stats_of_empty_bucket :
  (∀ (route_data : gmap route_key (list Z)) key,
     route_data !! key = Some [] →
     map_Forall (λ _ delays, Forall (λ d, - 2 ^ 53 ≤ d ≤ 2 ^ 53) delays)
       route_data →
     get_route_stats route_data = Raise StatisticsError)
  ∧ (∀ (stop_data : gmap string (list Z)) stop_id,
       stop_data !! stop_id = Some [] →
       map_Forall (λ _ delays, Forall (λ d, - 2 ^ 53 ≤ d ≤ 2 ^ 53) delays)
         stop_data →
       get_stop_stats stop_data = Raise StatisticsError).
Proof.
  split.
  - intros route_data key Hkey Hall. unfold get_route_stats.
    apply (stats_loop_empty _ _ key); [by apply elem_of_map_to_list|].
    apply map_Forall_to_list in Hall.
    eapply Forall_impl; [exact Hall|].
    intros [key' delays]. apply get_stats_bounded.
  - intros stop_data stop_id Hkey Hall. unfold get_stop_stats.
    apply (stats_loop_empty _ _ stop_id); [by apply elem_of_map_to_list|].
    apply map_Forall_to_list in Hall.
    eapply Forall_impl; [exact Hall|].
    intros [key' delays]. apply get_stats_bounded.
Qed.

Lemma get_stats_of_empty_bucket_witness :
  get_route_stats
    (<[("6636"%string, 0) := []]> (<[("6636"%string, 1) := [45]]> ∅))
  = Raise StatisticsError
  ∧ get_stop_stats (<["58143"%string := []]> (<["58145"%string := [45]]> ∅))
    = Raise StatisticsError.
Proof.
  destruct get_stats_of_empty_bucket as [Hroutes Hstops]. split.
  - apply (Hroutes _ ("6636"%string, 0)); [apply lookup_insert_eq|].
    apply map_Forall_insert_2; [apply Forall_nil_2|].
    apply map_Forall_insert_2; [|apply map_Forall_empty].
    repeat first [apply Forall_nil_2 | apply Forall_cons_2; [lia|]].
  - apply (Hstops _ "58143"%string); [apply lookup_insert_eq|].
    apply map_Forall_insert_2; [apply Forall_nil_2|].
    apply map_Forall_insert_2; [|apply map_Forall_empty].
    repeat first [apply Forall_nil_2 | apply Forall_cons_2; [lia|]].
Defined.

(** ** The whole snapshot *)

Section snapshot.

Lemma get_trip_info_missing (trip_data : trip_record) :
  trip_key_missing trip_data ↔ get_trip_info trip_data = Raise KeyError.
Proof.
  unfold trip_key_missing, get_trip_info.
  destruct trip_data
    as [[id|] [[[[[sd|] [sr|] [rid|] [did|]]|] [[[label|]]|] [stus|]]|]];
    simpl; split; intros; try discriminate; try tauto; intuition discriminate.
Qed.

Lemma read_trip_missing (st : read_state) (trip_data : trip_record) :
  trip_key_missing trip_data → read_trip st trip_data = Ok st.
Proof.
  intros Hmissing. apply get_trip_info_missing in Hmissing.
  unfold read_trip. by rewrite Hmissing.
Qed.

Lemma arrival_delays_app (stop_id : string)
    (stus stus' : list stop_time_update) :
  arrival_delays stop_id (stus ++ stus')
  = arrival_delays stop_id stus ++ arrival_delays stop_id stus'.
Proof. apply omap_app. Qed.

Lemma route_delays_singleton (key : route_key) (trip_data : trip_record) :
  route_delays key [trip_data]
  = match route_observation trip_data with
    | Some (key', delay) => if decide (key' = key) then [delay] else []
    | None => []
    end.
Proof.
  unfold route_delays. simpl.
  destruct (route_observation trip_data) as [[key' delay]|]; [|done].
  by destruct (decide (key' = key)).
Qed.

(** What one trip record adds to the two dictionaries. *)
Lemma read_trip_delays (st st' : read_state) (trip_data : trip_record) :
  read_trip st trip_data = Ok st' →
  (∀ key,
     default [] (routes st' !! key)
     = default [] (routes st !! key) ++ route_delays key [trip_data])
  ∧ (∀ stop_id,
       default [] (stops st' !! stop_id)
       = default [] (stops st !! stop_id)
         ++ arrival_delays stop_id (observed_stops trip_data)).
Proof.
  intros [_ Hshape]%read_trip_Ok.
  assert (Hsingle := λ key, route_delays_singleton key trip_data).
  unfold route_observation, observed_stops in *.
  destruct (get_trip_info trip_data) as [[[[rk stus] tid] v]|e].
  - destruct stus as [|stop stus].
    { simpl in Hshape. subst st'.
      split; intros; by rewrite ?Hsingle, app_nil_r. }
    change (get_next_stop_info (stop :: stus)) with (get_stop_info stop)
      in *.
    destruct (get_stop_info stop) as [[[[sid delay] arrival]|]|e] eqn:Hstop.
    + destruct Hshape as [Hroutes Hstops]. split; [|done].
      intros key. rewrite Hroutes, Hsingle.
      destruct (decide (rk = key)) as [->|Hne].
      * by rewrite lookup_append_delay_eq.
      * by rewrite lookup_append_delay_ne, app_nil_r.
    + subst st'. split; intros; by rewrite ?Hsingle, app_nil_r.
    + done.
  - subst st'. split; intros; by rewrite ?Hsingle, app_nil_r.
Qed.

Lemma read_trips_delays (data : list trip_record) (st st' : read_state) :
  for_each read_trip data st = Ok st' →
  (∀ key,
     default [] (routes st' !! key)
     = default [] (routes st !! key) ++ route_delays key data)
  ∧ (∀ stop_id,
       default [] (stops st' !! stop_id)
       = default [] (stops st !! stop_id) ++ stop_delays stop_id data).
Proof.
  revert st. induction data as [|trip_data data IH]; intros st.
  { intros [= <-]. split; intros; by rewrite app_nil_r. }
  intros (st1 & Hst1 & Hst')%for_each_cons_Ok.
  apply read_trip_delays in Hst1 as [Hr1 Hs1].
  apply IH in Hst' as [Hr' Hs']. split.
  - intros key. rewrite Hr', Hr1, <- app_assoc. f_equal.
    unfold route_delays. by rewrite <- omap_app.
  - intros stop_id. rewrite Hs', Hs1, <- app_assoc. f_equal.
    unfold stop_delays. by rewrite bind_cons, arrival_delays_app.
Qed.

Lemma bucket_default (entry : option (list Z)) :
  (∀ delays, entry = Some delays → delays ≠ []) →
  entry = bucket (default [] entry).
Proof.
  intros Hne. destruct entry as [[|d delays]|]; [|done..].
  by destruct (Hne []).
Qed.

(** [read_data] groups the observations of the snapshot by key. *)
Lemma read_data_buckets (data : list trip_record)
    (routes : gmap (string * Z) (list Z)) (stops : gmap string (list Z)) :
  read_data data = Ok (routes, stops) →
  (∀ key, routes !! key = bucket (route_delays key data))
  ∧ (∀ stop_id, stops !! stop_id = bucket (stop_delays stop_id data)).
Proof.
  intros (st & Hst & -> & ->)%read_data_Ok.
  destruct (read_trips_delays _ _ _ Hst) as [Hroutes Hstops].
  apply read_trips_Ok in Hst as [Hr Hs].
  2: { split; apply map_Forall_empty. }
  split.
  - intros key. specialize (Hroutes key). simpl in Hroutes.
    rewrite lookup_empty in Hroutes. simpl in Hroutes. rewrite <- Hroutes.
    apply bucket_default. intros delays Hkey. by apply (Hr key).
  - intros stop_id. specialize (Hstops stop_id). simpl in Hstops.
    rewrite lookup_empty in Hstops. simpl in Hstops. rewrite <- Hstops.
    apply bucket_default. intros delays Hkey. by apply (Hs stop_id).
Qed.

(** Whether a stop-time-update, a trip record or a snapshot is read
    without an exception does not depend on what was read before. *)
Lemma read_stops_returns (trip_id : string) (stus : list stop_time_update)
    (st : read_state) :
  (∃ st', for_each (read_stop trip_id) stus st = Ok st')
  ↔ Forall (λ stop, ∃ info, get_stop_info stop = Ok info) stus.
Proof.
  revert st. induction stus as [|stop stus IH]; intros st.
  { split; [intros _; apply Forall_nil_2|by eexists]. }
  rewrite Forall_cons. split.
  - intros [st' (st1 & Hst1 & Hst')%for_each_cons_Ok].
    apply read_stop_Ok in Hst1 as (Hinfo & _). split; [done|].
    apply (IH st1). eauto.
  - intros [[info Hinfo] Hall].
    assert (∃ st1, read_stop trip_id st stop = Ok st1) as [st1 Hst1].
    { unfold read_stop. rewrite Hinfo.
      destruct info as [[[stop_id delay] arrival]|]; by eexists. }
    destruct (proj2 (IH st1) Hall) as [st' Hst']. exists st'.
    cbn [for_each]. by rewrite Hst1.
Qed.

Lemma read_trip_returns (st : read_state) (trip_data : trip_record) :
  (∃ st', read_trip st trip_data = Ok st') ↔ trip_reads trip_data.
Proof.
  unfold read_trip, trip_reads.
  destruct (get_trip_info trip_data) as [[[[key stus] tid] v]|e] eqn:Htrip.
  - destruct (get_next_stop_info stus) as [[[[sid delay] arrival]|]|e];
      simpl.
    + apply read_stops_returns.
    + split; [done|]. by eexists.
    + split; [by intros [? ?]|done].
  - apply get_trip_info_Raise in Htrip as ->. split; [done|]. by eexists.
Qed.

Lemma read_trips_returns (data : list trip_record) (st : read_state) :
  (∃ st', for_each read_trip data st = Ok st') ↔ Forall trip_reads data.
Proof.
  revert st. induction data as [|trip_data data IH]; intros st.
  { split; [intros _; apply Forall_nil_2|by eexists]. }
  rewrite Forall_cons, <- (read_trip_returns st). simpl.
  destruct (read_trip st trip_data) as [st1|e]; simpl.
  - rewrite (IH st1). split; [intros ?; split; [by eexists|done]|].
    by intros [_ ?].
  - split; [by intros [? ?]|]. by intros [[? ?] _].
Qed.

Lemma read_data_returns (data : list trip_record) :
  (∃ routes stops, read_data data = Ok (routes, stops))
  ↔ Forall trip_reads data.
Proof.
  rewrite <- (read_trips_returns data (mk_read_state ∅ ∅ ∅)).
  unfold read_data.
  destruct (for_each read_trip data (mk_read_state ∅ ∅ ∅)) as [st|e];
    simpl; split.
  - intros _. by eexists.
  - intros _. by eexists _, _.
  - by intros (? & ? & ?).
  - by intros [? ?].
Qed.

(** A stop-time-update whose arrival time [datetime] can represent
    parses or is skipped. *)
Lemma get_stop_info_in_range (stop : stop_time_update) :
  stop_time_in_range stop → ∃ info, get_stop_info stop = Ok info.
Proof.
  intros Hrange. rewrite get_stop_info_cases.
  destruct (stu_stopSequence stop); [|by eexists].
  destruct (stu_arrival stop) as [[[delay|] [t|]]|] eqn:Harrival;
    try by eexists.
  pose proof (fromtimestamp_cases t) as Ht.
  rewrite (Hrange _ t Harrival eq_refl) in Ht. destruct Ht as [dt ->].
  repeat case_match; by eexists.
Qed.

Lemma get_trip_info_stops (trip_data : trip_record) (key : route_key)
    (stus : list stop_time_update) (trip_id vehicle : string) :
  get_trip_info trip_data = Ok (key, stus, trip_id, vehicle) →
  ∃ trip_update,
    tr_tripUpdate trip_data = Some trip_update
    ∧ tu_stopTimeUpdate trip_update = Some stus.
Proof.
  unfold get_trip_info.
  destruct trip_data
    as [[id|] [[[[[sd|] [sr|] [rid|] [did|]]|] [[[label|]]|] [stus'|]]|]];
    simpl; intros [=]; subst. by eexists.
Qed.

Lemma times_in_range_reads (data : list trip_record) :
  times_in_range data → Forall trip_reads data.
Proof.
  intros Hrange. apply Forall_forall. intros trip_data Hin.
  unfold trip_reads.
  destruct (get_trip_info trip_data) as [[[[key stus] tid] v]|e] eqn:Htrip;
    [|done].
  destruct (get_trip_info_stops _ _ _ _ _ Htrip) as (tu & Htu & Hstus).
  pose proof (Hrange _ _ _ Hin Htu Hstus) as Hall.
  assert (Forall (λ stop, ∃ info, get_stop_info stop = Ok info) stus)
    as Hinfo.
  { eapply Forall_impl; [exact Hall|]. apply get_stop_info_in_range. }
  destruct stus as [|stop stus]; [done|]. simpl.
  apply Forall_cons in Hinfo as Hfirst. destruct Hfirst as [[info ->] _].
  by destruct info.
Qed.

Lemma bucket_stats_Permutation (delays delays' : list Z) :
  delays ≡ₚ delays' →
  bucket delays ≫= stats_of = bucket delays' ≫= stats_of.
Proof.
  intros Hperm.
  destruct delays as [|d delays], delays' as [|d' delays']; simpl.
  - done.
  - by apply Permutation_nil_cons in Hperm.
  - symmetry in Hperm. by apply Permutation_nil_cons in Hperm.
  - unfold stats_of. by rewrite (get_stats_perm _ _ Hperm).
Qed.

Lemma bucket_nonempty (delays delays' : list Z) :
  bucket delays = Some delays' → delays' = delays ∧ delays' ≠ [].
Proof. destruct delays; [done|]. by intros [= <-]. Qed.

End snapshot.

Section bucket_stats.

Context `{Countable K}.

(** The statistics loop on a dictionary whose entries are buckets. *)
Lemma stats_loop_buckets (m : gmap K (list Z)) (f : K → list Z) :
  (∀ key, m !! key = bucket (f key)) →
  (∀ key, is_Some (bucket (f key)) →
     is_Some (bucket (f key) ≫= stats_of)) →
  ∃ out,
    for_each
      (λ out '(key, delays),
         stats ← get_stats delays; mret (<[key := stats]> out))
      (map_to_list m) (∅ : gmap K stats) = Ok out
    ∧ ∀ key, out !! key = bucket (f key) ≫= stats_of.
Proof.
  intros Hm Hsome.
  destruct (stats_loop_lookup (map_to_list m) ∅) as (out & Hout & Hl).
  { apply NoDup_fst_map_to_list. }
  { apply Forall_forall. intros [key delays] Hin.
    apply elem_of_map_to_list in Hin. rewrite Hm in Hin.
    specialize (Hsome key). rewrite Hin in Hsome. simpl in *. by eauto. }
  exists out. split; [done|]. intros key.
  rewrite Hl, list_to_map_to_list, lookup_empty, Hm.
  by destruct (bucket _).
Qed.

(** When the loop returns, it has the statistics of every bucket. *)
Lemma stats_loop_buckets_Ok (m : gmap K (list Z)) (f : K → list Z)
    (out : gmap K stats) :
  (∀ key, m !! key = bucket (f key)) →
  for_each
    (λ out '(key, delays),
       stats ← get_stats delays; mret (<[key := stats]> out))
    (map_to_list m) (∅ : gmap K stats) = Ok out →
  (∀ key, is_Some (bucket (f key)) →
     is_Some (bucket (f key) ≫= stats_of))
  ∧ ∀ key, out !! key = bucket (f key) ≫= stats_of.
Proof.
  intros Hm Hout.
  assert (∀ key, is_Some (bucket (f key)) →
            is_Some (bucket (f key) ≫= stats_of)) as Hsome.
  { intros key [delays Hkey]. rewrite Hkey. simpl.
    apply stats_loop_Ok in Hout. rewrite Forall_forall in Hout.
    apply (Hout (key, delays)), elem_of_map_to_list. by rewrite Hm. }
  split; [done|].
  destruct (stats_loop_buckets m f Hm Hsome) as (out' & Hout' & Hlookup).
  rewrite Hout in Hout'. by injection Hout' as <-.
Qed.

End bucket_stats.

(** X10.  [read_data] groups the observations by key: in the dictionaries
    it returns, the bucket of a route key holds, in feed order, the
    first-stop delays of the trips of that route, and the bucket of a stop
    id holds the arrival delays of the stop-time-updates at that stop; a
    key with no observation has no entry. *)
Theorem read_data_group_by (data : list trip_record)
    (routes : gmap (string * Z) (list Z)) (stops : gmap string (list Z)) :
  read_data data = Ok (routes, stops) →
  (∀ key, routes !! key = bucket (route_delays key data))
  ∧ (∀ stop_id, stops !! stop_id = bucket (stop_delays stop_id data)).
Proof. apply read_data_buckets. Qed.

Lemma read_data_group_by_witness :
  let data :=
    [sample_trip "14052410"
       [sample_stop 1 "58143" 45; sample_stop 2 "58145" 60];
     sample_trip "14052411" [sample_stop 1 "58143" (-30)]] in
  ∃ routes stops,
    read_data data = Ok (routes, stops)
    ∧ (∀ key, routes !! key = bucket (route_delays key data))
    ∧ (∀ stop_id, stops !! stop_id = bucket (stop_delays stop_id data)).
Proof.
  eexists _, _. split; [reflexivity|].
  exact (read_data_group_by
           [sample_trip "14052410"
              [sample_stop 1 "58143" 45; sample_stop 2 "58145" 60];
            sample_trip "14052411" [sample_stop 1 "58143" (-30)]]
           _ _ eq_refl).
Defined.

(** X11.  Reading two snapshots one after the other as one: when each of
    the two is read without an exception, so is their concatenation, and
    every bucket of the result is the bucket of the first snapshot followed
    by the bucket of the second. *)
Theorem read_data_app (data1 data2 : list trip_record)
    (routes1 routes2 : gmap (string * Z) (list Z))
    (stops1 stops2 : gmap string (list Z)) :
  read_data data1 = Ok (routes1, stops1) →
  read_data data2 = Ok (routes2, stops2) →
  ∃ routes stops,
    read_data (data1 ++ data2) = Ok (routes, stops)
    ∧ (∀ key,
         default [] (routes !! key)
         = default [] (routes1 !! key) ++ default [] (routes2 !! key))
    ∧ (∀ stop_id,
         default [] (stops !! stop_id)
         = default [] (stops1 !! stop_id) ++ default [] (stops2 !! stop_id)).
Proof.
  intros H1 H2.
  destruct (proj2 (read_data_returns (data1 ++ data2)))
    as (routes & stops & H12).
  { apply Forall_app. split; apply read_data_returns; eauto. }
  exists routes, stops. split; [done|].
  apply read_data_buckets in H1 as [Hr1 Hs1].
  apply read_data_buckets in H2 as [Hr2 Hs2].
  apply read_data_buckets in H12 as [Hr Hs].
  assert (∀ delays, default [] (bucket delays) = delays) as Hbucket
    by (by intros []).
  split.
  - intros key. rewrite Hr, Hr1, Hr2, !Hbucket. apply omap_app.
  - intros stop_id. rewrite Hs, Hs1, Hs2, !Hbucket.
    unfold stop_delays. by rewrite bind_app, arrival_delays_app.
Qed.

Lemma read_data_app_witness :
  let data1 := [sample_trip "14052410" [sample_stop 1 "58143" 45]] in
  let data2 := [sample_trip "14052411" [sample_stop 1 "58143" (-30)]] in
  ∃ routes1 stops1 routes2 stops2 routes stops,
    read_data data1 = Ok (routes1, stops1)
    ∧ read_data data2 = Ok (routes2, stops2)
    ∧ read_data (data1 ++ data2) = Ok (routes, stops)
    ∧ (∀ key,
         default [] (routes !! key)
         = default [] (routes1 !! key) ++ default [] (routes2 !! key))
    ∧ (∀ stop_id,
         default [] (stops !! stop_id)
         = default [] (stops1 !! stop_id) ++ default [] (stops2 !! stop_id)).
Proof.
  destruct (read_data_app
              [sample_trip "14052410" [sample_stop 1 "58143" 45]]
              [sample_trip "14052411" [sample_stop 1 "58143" (-30)]]
              _ _ _ _ eq_refl eq_refl) as (routes & stops & H).
  by eexists _, _, _, _, routes, stops.
Defined.

(** X12.  A trip record with a missing key -- [startDate] and
    [scheduleRelationship] included, although their values are not used --
    is skipped: the snapshot reads as if the record were not there. *)
Theorem read_data_skips_missing_key (data1 data2 : list trip_record)
    (trip_data : trip_record) :
  trip_key_missing trip_data →
  read_data (data1 ++ trip_data :: data2) = read_data (data1 ++ data2).
Proof.
  intros Hmissing. unfold read_data. rewrite !for_each_app.
  destruct (for_each read_trip data1 (mk_read_state ∅ ∅ ∅)) as [st|e];
    [simpl|done].
  by rewrite (read_trip_missing st trip_data Hmissing).
Qed.

Lemma read_data_skips_missing_key_witness :
  let no_route :=
    {| tr_id := Some "14052410"%string;
       tr_tripUpdate :=
         Some {|
           tu_trip :=
             Some {| td_startDate := Some "20241126"%string;
                     td_scheduleRelationship := Some "SCHEDULED"%string;
                     td_routeId := None;
                     td_directionId := Some 0 |};
           tu_vehicle := Some {| vd_label := Some "18309"%string |};
           tu_stopTimeUpdate := Some [sample_stop 1 "58143" 45]
         |} |} in
  read_data ([sample_trip "1" [sample_stop 1 "58143" 45]]
             ++ no_route :: [sample_trip "2" [sample_stop 1 "58145" 60]])
  = read_data ([sample_trip "1" [sample_stop 1 "58143" 45]]
               ++ [sample_trip "2" [sample_stop 1 "58145" 60]]).
Proof.
  apply read_data_skips_missing_key.
  right. left. right. right. left. reflexivity.
Defined.

(** X13.  A trip that contributes a route observation is visible in both
    dictionaries that [read_data] returns: the arrival delay of its first
    stop-time-update is in the bucket of its route key and in the bucket of
    that stop. *)
Theorem read_data_first_stop_in_both (data : list trip_record)
    (trip_data : trip_record) (route_key : route_key)
    (stop : stop_time_update) (rest : list stop_time_update)
    (trip_id vehicle stop_id : string) (delay : Z)
    (arrival_time : Datetime.datetime)
    (routes : gmap (string * Z) (list Z)) (stops : gmap string (list Z)) :
  trip_data ∈ data →
  get_trip_info trip_data = Ok (route_key, stop :: rest, trip_id, vehicle) →
  get_stop_info stop = Ok (Some (stop_id, delay, arrival_time)) →
  read_data data = Ok (routes, stops) →
  ∃ route_bucket stop_bucket,
    routes !! route_key = Some route_bucket ∧ delay ∈ route_bucket
    ∧ stops !! stop_id = Some stop_bucket ∧ delay ∈ stop_bucket.
Proof.
  intros Hin Htrip Hstop [Hr Hs]%read_data_buckets.
  assert (delay ∈ route_delays route_key data) as Hroute.
  { apply list_elem_of_omap. exists trip_data. split; [done|].
    unfold route_observation. rewrite Htrip, Hstop.
    by rewrite decide_True. }
  assert (delay ∈ stop_delays stop_id data) as Hstops.
  { apply list_elem_of_omap. exists stop. split.
    - apply list_elem_of_bind. exists trip_data. split; [|done].
      unfold observed_stops. rewrite Htrip.
      change (get_next_stop_info (stop :: rest)) with (get_stop_info stop).
      rewrite Hstop. left.
    - rewrite Hstop. by rewrite decide_True. }
  exists (route_delays route_key data), (stop_delays stop_id data).
  rewrite Hr, Hs.
  split; [|split; [done|split; [|done]]].
  - destruct (route_delays route_key data); [|done].
    by apply not_elem_of_nil in Hroute.
  - destruct (stop_delays stop_id data); [|done].
    by apply not_elem_of_nil in Hstops.
Qed.

Lemma read_data_first_stop_in_both_witness :
  let trip_data := sample_trip "14052410" [sample_stop 1 "58143" 45] in
  ∃ routes stops route_bucket stop_bucket,
    read_data [trip_data] = Ok (routes, stops)
    ∧ routes !! ("6636"%string, 0) = Some route_bucket ∧ 45 ∈ route_bucket
    ∧ stops !! "58143"%string = Some stop_bucket ∧ 45 ∈ stop_bucket.
Proof.
  destruct (read_data_first_stop_in_both
              [sample_trip "14052410" [sample_stop 1 "58143" 45]]
              (sample_trip "14052410" [sample_stop 1 "58143" 45])
              ("6636"%string, 0) (sample_stop 1 "58143" 45) []
              "14052410" "18309" "58143" 45
              (Datetime.mk_datetime 2024 11 26 16 0 55 0 (Some Datetime.utc))
              _ _ ltac:(left) eq_refl eq_refl eq_refl)
    as (route_bucket & stop_bucket & H).
  by eexists _, _, route_bucket, stop_bucket.
Defined.

(** X14.  From the snapshot to the statistics.  When [read_data] returns
    and [get_route_stats] and the first definition of [get_stop_stats]
    return on its output, a key has statistics exactly when it has an
    observation, they are the statistics of its observations, and the
    [count] of a route is its number of observed trips. *)
Theorem aggregate_snapshot (data : list trip_record)
    (routes : gmap (string * Z) (list Z)) (stops : gmap string (list Z))
    (route_stats : gmap (string * Z) stats)
    (stop_stats : gmap string stats) :
  read_data data = Ok (routes, stops) →
  get_route_stats routes = Ok route_stats →
  get_stop_stats stops = Ok stop_stats →
  (∀ key, route_stats !! key = bucket (route_delays key data) ≫= stats_of)
  ∧ (∀ stop_id,
       stop_stats !! stop_id
       = bucket (stop_delays stop_id data) ≫= stats_of)
  ∧ (∀ key, is_Some (route_stats !! key) ↔ route_delays key data ≠ [])
  ∧ (∀ stop_id,
       is_Some (stop_stats !! stop_id) ↔ stop_delays stop_id data ≠ [])
  ∧ (∀ key s, route_stats !! key = Some s →
       count s = Z.of_nat (length (route_delays key data))).
Proof.
  intros [Hr Hs]%read_data_buckets Hrs Hss.
  apply (stats_loop_buckets_Ok _ _ _ Hr) in Hrs as [Hrsome Hroute].
  apply (stats_loop_buckets_Ok _ _ _ Hs) in Hss as [Hssome Hstop].
  split; [done|]. split; [done|].
  assert (∀ delays, is_Some (bucket delays) ↔ delays ≠ []) as Hbucket.
  { intros [|d delays]; simpl.
    - split; [by intros [? ?]|done].
    - split; [done|]. intros _. by eexists. }
  split; [|split].
  - intros key. rewrite Hroute, <- Hbucket. split.
    + intros [s Hsome].
      destruct (bucket (route_delays key data)); [by eexists|done].
    + apply Hrsome.
  - intros stop_id. rewrite Hstop, <- Hbucket. split.
    + intros [s Hsome].
      destruct (bucket (stop_delays stop_id data)); [by eexists|done].
    + apply Hssome.
  - intros key s. rewrite Hroute.
    destruct (bucket (route_delays key data)) as [delays|] eqn:Hb; [|done].
    apply bucket_nonempty in Hb as [-> _]. simpl. unfold stats_of.
    destruct (get_stats (route_delays key data)) as [s'|e] eqn:Hs'; [|done].
    intros [= <-]. by apply get_stats_fields in Hs' as (m & md & _ & _ & ->).
Qed.

Lemma aggregate_snapshot_witness :
  let data :=
    [sample_trip "14052410"
       [sample_stop 1 "58143" 45; sample_stop 2 "58145" 60];
     sample_trip "14052411" [sample_stop 1 "58143" (-30)]] in
  ∃ routes stops route_stats stop_stats,
    read_data data = Ok (routes, stops)
    ∧ get_route_stats routes = Ok route_stats
    ∧ get_stop_stats stops = Ok stop_stats
    ∧ (∀ key,
         route_stats !! key = bucket (route_delays key data) ≫= stats_of)
    ∧ (∀ stop_id,
         stop_stats !! stop_id
         = bucket (stop_delays stop_id data) ≫= stats_of)
    ∧ (∀ key, is_Some (route_stats !! key) ↔ route_delays key data ≠ [])
    ∧ (∀ stop_id,
         is_Some (stop_stats !! stop_id) ↔ stop_delays stop_id data ≠ [])
    ∧ (∀ key s, route_stats !! key = Some s →
         count s = Z.of_nat (length (route_delays key data))).
Proof.
  eexists _, _, _, _. split; [reflexivity|].
  split; [vm_compute; reflexivity|]. split; [vm_compute; reflexivity|].
  refine (aggregate_snapshot
            [sample_trip "14052410"
               [sample_stop 1 "58143" 45; sample_stop 2 "58145" 60];
             sample_trip "14052411" [sample_stop 1 "58143" (-30)]]
            _ _ _ _ eq_refl _ _); vm_compute; reflexivity.
Defined.

(** X15.  The statistics do not depend on the order of the records in the
    snapshot: when the snapshot is read and reduced without an exception,
    so is every reordering of it, to the same statistics. *)
Theorem aggregate_Permutation (data data' : list trip_record)
    (routes : gmap (string * Z) (list Z)) (stops : gmap string (list Z))
    (route_stats : gmap (string * Z) stats)
    (stop_stats : gmap string stats) :
  data ≡ₚ data' →
  read_data data = Ok (routes, stops) →
  get_route_stats routes = Ok route_stats →
  get_stop_stats stops = Ok stop_stats →
  ∃ routes' stops',
    read_data data' = Ok (routes', stops')
    ∧ get_route_stats routes' = Ok route_stats
    ∧ get_stop_stats stops' = Ok stop_stats.
Proof.
  intros Hperm Hdata Hrs Hss.
  destruct (proj2 (read_data_returns data')) as (routes' & stops' & Hdata').
  { rewrite <- Hperm. apply read_data_returns. eauto. }
  exists routes', stops'. split; [done|].
  apply read_data_buckets in Hdata as [Hr Hs].
  apply read_data_buckets in Hdata' as [Hr' Hs'].
  apply (stats_loop_buckets_Ok _ _ _ Hr) in Hrs as [Hrsome Hroute].
  apply (stats_loop_buckets_Ok _ _ _ Hs) in Hss as [Hssome Hstop].
  assert (∀ key, bucket (route_delays key data') ≫= stats_of
                 = bucket (route_delays key data) ≫= stats_of) as Hrperm.
  { intros key. apply bucket_stats_Permutation. unfold route_delays.
    by rewrite Hperm. }
  assert (∀ stop_id, bucket (stop_delays stop_id data') ≫= stats_of
                     = bucket (stop_delays stop_id data) ≫= stats_of)
    as Hsperm.
  { intros stop_id. apply bucket_stats_Permutation.
    unfold stop_delays, arrival_delays. by rewrite Hperm. }
  assert (∀ l l' : list Z, l ≡ₚ l' → is_Some (bucket l') → is_Some (bucket l))
    as Hbucket.
  { intros l l' Hp [x Hx]. destruct l as [|d l]; [|by eexists].
    apply Permutation_nil in Hp as ->. discriminate Hx. }
  destruct (stats_loop_buckets routes' _ Hr') as (rs' & Hrs' & Hrsl').
  { intros key Hsome. rewrite Hrperm. apply Hrsome.
    revert Hsome. apply Hbucket. unfold route_delays. by rewrite Hperm. }
  destruct (stats_loop_buckets stops' _ Hs') as (ss' & Hss' & Hssl').
  { intros stop_id Hsome. rewrite Hsperm. apply Hssome.
    revert Hsome. apply Hbucket. unfold stop_delays, arrival_delays.
    by rewrite Hperm. }
  assert (rs' = route_stats) as ->.
  { apply map_eq. intros key. by rewrite Hrsl', Hroute. }
  assert (ss' = stop_stats) as ->.
  { apply map_eq. intros stop_id. by rewrite Hssl', Hstop. }
  done.
Qed.

Lemma aggregate_Permutation_witness :
  let trip1 := sample_trip "1" [sample_stop 1 "58143" 45] in
  let trip2 := sample_trip "2" [sample_stop 1 "58143" 60] in
  ∃ routes stops route_stats stop_stats,
    read_data [trip1; trip2] = Ok (routes, stops)
    ∧ get_route_stats routes = Ok route_stats
    ∧ get_stop_stats stops = Ok stop_stats
    ∧ ∃ routes' stops',
        read_data [trip2; trip1] = Ok (routes', stops')
        ∧ get_route_stats routes' = Ok route_stats
        ∧ get_stop_stats stops' = Ok stop_stats.
Proof.
  eexists _, _, _, _.
  split; [reflexivity|].
  split; [vm_compute; reflexivity|]. split; [vm_compute; reflexivity|].
  refine (aggregate_Permutation
            [sample_trip "1" [sample_stop 1 "58143" 45];
             sample_trip "2" [sample_stop 1 "58143" 60]]
            [sample_trip "2" [sample_stop 1 "58143" 60];
             sample_trip "1" [sample_stop 1 "58143" 45]]
            _ _ _ _ (Permutation_swap _ _ _) eq_refl _ _);
    vm_compute; reflexivity.
Defined.

(** X19.  A missing key never makes [read_data] raise: its exceptions are
    those of an arrival time that [datetime.fromtimestamp] cannot convert,
    [ValueError], [OverflowError] or [OSError].  It returns when every
    arrival time of the snapshot is between the years 1 and 9999. *)
Theorem read_data_raises (data : list trip_record) :
  (∀ e, read_data data = Raise e →
     e = ValueError ∨ e = OverflowError ∨ e = OSError)
  ∧ (times_in_range data →
     ∃ routes stops, read_data data = Ok (routes, stops)).
Proof.
  split.
  - intros e. unfold read_data.
    destruct (for_each read_trip data (mk_read_state ∅ ∅ ∅)) as [st|e']
      eqn:Hloop; [done|].
    intros [= <-]. revert Hloop.
    apply (for_each_Raise _
             (λ e, e = ValueError ∨ e = OverflowError ∨ e = OSError)).
    intros ???. apply read_trip_Raise.
  - intros Hrange. by apply read_data_returns, times_in_range_reads.
Qed.

Lemma read_data_raises_witness :
  ∃ routes stops,
    read_data
      [sample_trip "14052410"
         [sample_stop 1 "58143" 45; sample_stop_without_arrival 2 "58144"]]
    = Ok (routes, stops).
Proof.
  apply read_data_raises.
  intros trip_data trip_update stop_time_updates Hin Hupdate Hstops.
  apply list_elem_of_In in Hin. simpl in Hin. destruct Hin as [<-|[]].
  injection Hupdate as <-. injection Hstops as <-.
  repeat first [apply Forall_nil_2 | apply Forall_cons_2];
    intros a t [= <-] [= <-]; reflexivity.
Defined.

(** One arrival time in the year 10000 loses the snapshot. *)
Example read_data_ValueError :
  read_data
    [sample_trip "14052410" [sample_stop 1 "58143" 45];
     sample_trip "14052411"
       [{| stu_stopSequence := Some 1;
           stu_arrival :=
             Some {| ste_delay := Some 60; ste_time := Some 253402300800 |};
           stu_departure :=
             Some {| ste_delay := Some 60; ste_time := Some 253402300800 |};
           stu_stopId := Some "58145"%string |}]]
  = Raise ValueError.
Proof. reflexivity. Qed.

(** ** The batches of the stop statistics *)

Section batches.

Variable stop_results : gmap string (result (list stop_row)).
Variable update_time : Datetime.datetime.

Lemma ingest_stop_full (st : ingest_state) (item : string * stats)
    (rows : list stop_row) :
  stop_results !! item.1 = Some (Ok rows) →
  ingest_full st →
  ∃ st', ingest_stop stop_results update_time st item = Ok st'
         ∧ ingest_full st'.
Proof.
  destruct item as [stop_id s]. simpl. intros Hrows (Hcount & Hlen & Hexec).
  unfold ingest_stop. rewrite Hrows. simpl.
  destruct (Z.eqb_spec (batch_count st) 30) as [H30|H30];
    destruct rows as [|stop_details rows]; simpl;
    (eexists; split; [reflexivity|]); unfold ingest_full; simpl.
  - split; [done|]. split; [lia|].
    apply Forall_app. split; [done|]. apply Forall_singleton. lia.
  - split; [done|]. split; [lia|].
    apply Forall_app. split; [done|]. apply Forall_singleton. lia.
  - done.
  - rewrite length_app. simpl. split; [lia|]. split; [lia|done].
Qed.

Lemma ingest_loop_full (stop_stats : list (string * stats))
    (st : ingest_state) :
  (∀ stop_id s, (stop_id, s) ∈ stop_stats →
     ∃ rows, stop_results !! stop_id = Some (Ok rows)) →
  ingest_full st →
  ∃ st', for_each (ingest_stop stop_results update_time) stop_stats st
         = Ok st'
         ∧ ingest_full st'.
Proof.
  revert st. induction stop_stats as [|item stop_stats IH];
    intros st Hlookup Hinv.
  { by exists st. }
  destruct (Hlookup item.1 item.2) as [rows Hrows].
  { destruct item. left. }
  destruct (ingest_stop_full st item rows Hrows Hinv) as (st1 & Hst1 & Hinv1).
  destruct (IH st1) as (st' & Hst' & Hinv'); [|done|].
  { intros stop_id s Hin. apply (Hlookup stop_id s). by right. }
  exists st'. simpl. rewrite Hst1. by simpl.
Qed.

(** The loop stops at the first lookup that is missing or has failed. *)
Lemma ingest_loop_raises (before after : list (string * stats))
    (stop_id : string) (s : stats) (e : exn) (st : ingest_state) :
  (∀ stop_id' s', (stop_id', s') ∈ before →
     ∃ rows, stop_results !! stop_id' = Some (Ok rows)) →
  subscript (stop_results !! stop_id) ≫= (λ future, future) = Raise e →
  ingest_full st →
  for_each (ingest_stop stop_results update_time)
    (before ++ (stop_id, s) :: after) st = Raise e.
Proof.
  intros Hbefore Hfails Hinv. rewrite for_each_app.
  destruct (ingest_loop_full before st Hbefore Hinv) as (st1 & -> & _).
  simpl. unfold ingest_stop.
  by destruct (stop_results !! stop_id) as [[rows|e']|]; simplify_eq/=.
Qed.

End batches.

Section stop_data.

Variable execute_async : string → result (list stop_row).

Lemma get_stop_data_foldl (stop_ids : list string)
    (results : gmap string (result (list stop_row))) (stop_id : string) :
  foldl
    (λ results stop_id,
       <[stop_id := execute_async (stop_query stop_id)]> results)
    results stop_ids !! stop_id
  = if decide (stop_id ∈ stop_ids)
    then Some (execute_async (stop_query stop_id))
    else results !! stop_id.
Proof.
  revert results. induction stop_ids as [|stop_id' stop_ids IH];
    intros results; cbn [foldl].
  { rewrite decide_False; [done|]. apply not_elem_of_nil. }
  rewrite IH. destruct (decide (stop_id ∈ stop_ids)) as [Hin|Hnotin].
  - rewrite decide_True; [done|]. by right.
  - destruct (decide (stop_id = stop_id')) as [->|Hne].
    + rewrite decide_True by left. apply lookup_insert_eq.
    + rewrite decide_False.
      * by apply lookup_insert_ne.
      * intros [?|?]%elem_of_cons; done.
Qed.

(** One lookup per stop with statistics, and no other. *)
Lemma get_stop_data_lookup (stop_stats : list (string * stats))
    (stop_id : string) :
  get_stop_data execute_async stop_stats !! stop_id
  = if decide (stop_id ∈ stop_stats.*1)
    then Some (execute_async (stop_query stop_id))
    else None.
Proof.
  unfold get_stop_data. by rewrite get_stop_data_foldl, lookup_empty.
Qed.

End stop_data.

Section batch_sizes.

Lemma length_concat_full {A} (n : nat) (batches : list (list A)) :
  Forall (λ b, length b = n) batches →
  length (concat batches) = (n * length batches)%nat.
Proof.
  induction 1 as [|b batches Hb _ IH]; simpl; [lia|].
  rewrite length_app, IH, Hb. lia.
Qed.

Lemma sample_stop_results_lookup (stop_id : string) (s : stats) :
  (stop_id, s) ∈ sample_stop_stats →
  ∃ rows, sample_stop_results !! stop_id = Some (Ok rows).
Proof.
  intros (sid & [= -> ->] & Hin)%list_elem_of_fmap.
  exists [sample_stop_row sid "Main St"].
  apply elem_of_list_to_map_1.
  - apply (bool_decide_unpack _). vm_compute. reflexivity.
  - apply list_elem_of_fmap. by exists sid.
Qed.

End batch_sizes.

(** X16.  [ingest_stop_stats_by_time] sends full batches: when every detail
    lookup has completed, every batch but the last holds exactly 30
    statements and the last one at most 30, so that [n] statements go out
    as [30 * k + r] with [k] full batches and a last batch of [r ≤ 30];
    one batch is sent even when there is no statement at all. *)
Theorem ingest_stop_stats_by_time_full_batches
    (stop_stats : list (string * stats))
    (stop_results : gmap string (result (list stop_row)))
    (update_time : Datetime.datetime) :
  (∀ stop_id s, (stop_id, s) ∈ stop_stats →
     ∃ rows, stop_results !! stop_id = Some (Ok rows)) →
  ∃ full last,
    ingest_stop_stats_by_time stop_stats stop_results update_time
    = Ok (full ++ [last])
    ∧ Forall (λ b, length b = 30%nat) full
    ∧ (length last ≤ 30)%nat
    ∧ length (omap (stop_statement stop_results update_time) stop_stats)
      = (30 * length full + length last)%nat.
Proof.
  intros Hlookup.
  destruct (ingest_loop_full stop_results update_time stop_stats
              {| batch := []; batch_count := 0; executed := [] |} Hlookup)
    as (st & Hst & _ & Hlen & Hexec).
  { split; [done|]. split; [simpl; lia|done]. }
  destruct (ingest_loop_ok stop_results update_time stop_stats
              {| batch := []; batch_count := 0; executed := [] |} Hlookup)
    as (st2 & Hst2 & _ & Hstatements).
  { split; [done|]. split; [simpl; lia|done]. }
  rewrite Hst in Hst2. injection Hst2 as <-.
  exists (executed st), (batch st).
  unfold ingest_stop_stats_by_time. rewrite Hst.
  split; [done|]. split; [done|]. split; [done|].
  unfold statements in Hstatements. simpl in Hstatements.
  rewrite <- Hstatements, length_app. f_equal.
  by apply length_concat_full.
Qed.

Lemma ingest_stop_stats_by_time_full_batches_witness :
  let update_time :=
    Datetime.mk_datetime 2024 11 26 16 0 55 0 (Some Datetime.utc) in
  ∃ full last,
    ingest_stop_stats_by_time sample_stop_stats sample_stop_results
      update_time
    = Ok (full ++ [last])
    ∧ Forall (λ b, length b = 30%nat) full
    ∧ (length last ≤ 30)%nat
    ∧ length (omap (stop_statement sample_stop_results update_time)
                sample_stop_stats)
      = (30 * length full + length last)%nat.
Proof.
  apply ingest_stop_stats_by_time_full_batches.
  apply sample_stop_results_lookup.
Defined.

(** The thirty-one statements of the sample go out as a batch of 30 and a
    batch of one. *)
Example ingest_stop_stats_by_time_31 :
  match
    ingest_stop_stats_by_time sample_stop_stats sample_stop_results
      (Datetime.mk_datetime 2024 11 26 16 0 55 0 (Some Datetime.utc))
  with
  | Ok batches => length <$> batches
  | Raise _ => []
  end
  = [30%nat; 1%nat].
Proof. vm_compute. reflexivity. Qed.

(** X17.  [ingest_stop_stats_by_time] stops at the first stop whose detail
    lookup is missing from [stop_results] ([KeyError]) or has failed (the
    exception of the driver): it raises that exception, whatever comes
    after. *)
Theorem ingest_stop_stats_by_time_raises
    (before after : list (string * stats)) (stop_id : string) (s : stats)
    (stop_results : gmap string (result (list stop_row)))
    (update_time : Datetime.datetime) (e : exn) :
  (∀ stop_id' s', (stop_id', s') ∈ before →
     ∃ rows, stop_results !! stop_id' = Some (Ok rows)) →
  stop_results !! stop_id = None ∧ e = KeyError
  ∨ stop_results !! stop_id = Some (Raise e) →
  ingest_stop_stats_by_time (before ++ (stop_id, s) :: after) stop_results
    update_time
  = Raise e.
Proof.
  intros Hbefore Hfails. unfold ingest_stop_stats_by_time.
  rewrite (ingest_loop_raises stop_results update_time before after
             stop_id s e); [done|done| |].
  - by destruct Hfails as [[-> ->]| ->].
  - split; [done|]. split; [simpl; lia|done].
Qed.

Lemma ingest_stop_stats_by_time_raises_witness :
  let stop_results : gmap string (result (list stop_row)) :=
    <["58143"%string := Ok [sample_stop_row "58143" "Main St"]]>
      (<["58144"%string := Raise DriverError]> ∅) in
  ingest_stop_stats_by_time
    ([("58143"%string, sample_stats 45)]
     ++ ("58144"%string, sample_stats 60)
        :: [("58145"%string, sample_stats 75)])
    stop_results
    (Datetime.mk_datetime 2024 11 26 16 0 55 0 (Some Datetime.utc))
  = Raise DriverError.
Proof.
  apply ingest_stop_stats_by_time_raises.
  - intros stop_id s Hin. apply list_elem_of_In in Hin. simpl in Hin.
    destruct Hin as [[= <- <-]|[]]. eexists. reflexivity.
  - right. reflexivity.
Defined.

(** X18.  The lookups of [get_stop_data] fit the ingestion: with the
    futures of [get_stop_data] for the same statistics and a session that
    answers every query, [ingest_stop_stats_by_time] returns -- no stop id
    is missing from the lookups -- and the statements sent are, in the
    order of the items of [stop_stats], those of the stops for which the
    query [SELECT * FROM stop WHERE stop_id = '...'] has a row, joined with
    its first row. *)
Theorem ingest_stop_stats_by_time_get_stop_data
    (execute_async : string → result (list stop_row))
    (stop_stats : list (string * stats))
    (update_time : Datetime.datetime) :
  (∀ stop_id s, (stop_id, s) ∈ stop_stats →
     ∃ rows, execute_async (stop_query stop_id) = Ok rows) →
  ∃ batches,
    ingest_stop_stats_by_time stop_stats
      (get_stop_data execute_async stop_stats) update_time
    = Ok batches
    ∧ concat batches
      = omap
          (λ '(stop_id, s),
             match execute_async (stop_query stop_id) with
             | Ok (stop_details :: _) =>
                 Some (stop_stat_values stop_id stop_details s update_time)
             | _ => None
             end)
          stop_stats.
Proof.
  intros Hsession.
  set (stop_results := get_stop_data execute_async stop_stats).
  assert (∀ stop_id s, (stop_id, s) ∈ stop_stats →
            stop_results !! stop_id
            = Some (execute_async (stop_query stop_id))) as Hfuture.
  { intros stop_id s Hin. unfold stop_results.
    rewrite get_stop_data_lookup, decide_True; [done|].
    apply list_elem_of_fmap. by exists (stop_id, s). }
  destruct (ingest_loop_ok stop_results update_time stop_stats
              {| batch := []; batch_count := 0; executed := [] |})
    as (st & Hst & _ & Hstatements).
  { intros stop_id s Hin. rewrite (Hfuture stop_id s Hin).
    destruct (Hsession stop_id s Hin) as [rows ->]. by exists rows. }
  { split; [done|]. split; [simpl; lia|done]. }
  exists (executed st ++ [batch st]).
  unfold ingest_stop_stats_by_time. rewrite Hst. split; [done|].
  rewrite concat_app. simpl. rewrite app_nil_r.
  unfold statements in Hstatements. simpl in Hstatements.
  rewrite Hstatements. apply list_omap_ext, Forall2_same_length_lookup.
  split; [done|]. intros i [stop_id s] item Hi Hitem.
  rewrite Hi in Hitem. injection Hitem as <-.
  unfold stop_statement. simpl.
  by rewrite (Hfuture stop_id s) by (by eapply list_elem_of_lookup_2).
Qed.

Lemma ingest_stop_stats_by_time_get_stop_data_witness :
  let execute_async (query : string) : result (list stop_row) :=
    if decide (query = stop_query "58143")
    then Ok [sample_stop_row "58143" "Main St"] else Ok [] in
  let stop_stats :=
    [("58144"%string, sample_stats 60); ("58143"%string, sample_stats 45)] in
  let update_time :=
    Datetime.mk_datetime 2024 11 26 16 0 55 0 (Some Datetime.utc) in
  ∃ batches,
    ingest_stop_stats_by_time stop_stats
      (get_stop_data execute_async stop_stats) update_time
    = Ok batches
    ∧ concat batches
      = omap
          (λ '(stop_id, s),
             match execute_async (stop_query stop_id) with
             | Ok (stop_details :: _) =>
                 Some (stop_stat_values stop_id stop_details s update_time)
             | _ => None
             end)
          stop_stats.
Proof.
  apply ingest_stop_stats_by_time_get_stop_data.
  intros stop_id s _.
  destruct (decide (stop_query stop_id = stop_query "58143")) as [Heq|Hne];
    eexists; reflexivity.
Defined.
